(** * Actor Link: bidirectional breadth-first search over the TMDb
      person/movie graph (app.py)

    A shallow embedding of the search core of [app.py]: the provider call
    [tmdb_get], the two [lru_cache]d adjacency functions, [expand],
    [reconstruct] and [bidir_bfs_people], followed by the properties of the
    search that the specification states. *)

From stdpp Require Import gmap sorting list strings.
From Stdlib Require Import ZArith Lia.

Local Open Scope Z_scope.

(** ** Nodes *)

(** The first component of the tuples [("person", id)] and [("movie", id)]. *)
Inductive ntype := person | movie.

#[global] Instance ntype_eq_dec : EqDecision ntype.
Proof. solve_decision. Defined.

#[global] Instance ntype_countable : Countable ntype.
Proof.
  refine (inj_countable' (λ t, match t with person => true | movie => false end)
                         (λ b : bool, if b then person else movie) _).
  by intros [].
Defined.

Abbreviation Node := (ntype * Z)%type.

(** A person's neighbours are movies and a movie's neighbours are people. *)
Definition other_type (t : ntype) : ntype :=
  match t with person => movie | movie => person end.

(** ** Exceptions, outcomes and the process state *)

(** What can be raised below [bidir_bfs_people]: [raise_for_status] and the
    transport raise inside [tmdb_get]; [popleft] raises on an empty deque. *)
Inductive exn :=
| HTTPError (status : Z)
| ConnectionError
| IndexError.

(** What a TMDb credits request answers: the [id]s of the entries of the
    ["cast"] list, in the order of the response, or a failure. *)
Inductive response :=
| Failed (e : exn)
| Cast (ids : list Z).

(** The [while] loops of the source have no structural bound: the embedding
    runs them on fuel, and [OutOfFuel] says the fuel did not suffice. *)
Inductive outcome (A : Type) :=
| OutOfFuel
| Raise (e : exn)
| Return (a : A).
Arguments OutOfFuel {A}.
Arguments Raise {A} e.
Arguments Return {A} a.

(** Observable steps, recorded in program order. *)
Inductive event :=
| EFetch (n : Node)      (* [tmdb_get] was called for the credits of [n] *)
| EDequeue (n : Node)    (* [q.popleft()] gave [n] *)
| ERound (depth : Z).    (* the body of the [while] loop was entered *)

(** One [functools.lru_cache]: the entries, most recently used first. *)
Abbreviation lru := (list (Z * list Z)).

(** The module-level state: the two caches and the log of events. *)
Record world := World {
  person_movies_lru : lru;
  movie_cast_lru : lru;
  trace : list event
}.

Definition M (A : Type) : Type := world → outcome A * world.

Definition ret {A} (a : A) : M A := λ w, (Return a, w).
Definition raise {A} (e : exn) : M A := λ w, (Raise e, w).
Definition out_of_fuel {A} : M A := λ w, (OutOfFuel, w).
Definition bind {A B} (m : M A) (k : A → M B) : M B :=
  λ w, match m w with
       | (Return a, w') => k a w'
       | (Raise e, w') => (Raise e, w')
       | (OutOfFuel, w') => (OutOfFuel, w')
       end.
Definition log (e : event) : M unit :=
  λ w, (Return tt, World (person_movies_lru w) (movie_cast_lru w) (trace w ++ [e])).

Notation "'let*' x ':=' m 'in' k" := (bind m (λ x, k))
  (at level 10, x pattern, m at level 100, k at level 200).

(** ** The provider call and the caches *)

Section Search.

(** The external service, as far as the search reads it. *)
Variable tmdb : Node → response.

(** [tmdb_get] on the credits path of a node, followed by the extraction
    of the cast ids. *)
Definition tmdb_get (n : Node) : M (list Z) :=
  let* _ := log (EFetch n) in
  match tmdb n with
  | Failed e => raise e
  | Cast ids => ret ids
  end.

(** [tuple(sorted({m["id"] for m in cast}))]. *)
Definition sorted_ids (cast : list Z) : list Z :=
  merge_sort Z.le (remove_dups cast).

Definition maxsize : Z := 10000.

Fixpoint lru_find (k : Z) (c : lru) : option (list Z) :=
  match c with
  | [] => None
  | (k', v) :: c' => if decide (k = k') then Some v else lru_find k c'
  end.

Definition lru_remove (k : Z) (c : lru) : lru :=
  filter (λ e, e.1 ≠ k) c.

(** What [lru_cache(maxsize)] does to its cache around one call: a hit
    moves the entry to the front; a miss calls the function and, when it
    returns, stores the result at the front, first dropping the oldest
    entry if the cache is full; when the function raises nothing is
    stored. *)
Definition lru_cache (f : Z → M (list Z))
    (get : world → lru) (set : lru → world → world) (k : Z) : M (list Z) :=
  λ w, match lru_find k (get w) with
       | Some v => (Return v, set ((k, v) :: lru_remove k (get w)) w)
       | None =>
           match f k w with
           | (Return v, w') =>
               let c := get w' in
               let c' := if decide (maxsize ≤ Z.of_nat (length c))
                         then removelast c else c in
               (Return v, set ((k, v) :: c') w')
           | r => r
           end
       end.

Definition set_person_movies (c : lru) (w : world) : world :=
  World c (movie_cast_lru w) (trace w).
Definition set_movie_cast (c : lru) (w : world) : world :=
  World (person_movies_lru w) c (trace w).

Definition _person_movies_cached : Z → M (list Z) :=
  lru_cache (λ person_id, let* cast := tmdb_get (person, person_id) in ret (sorted_ids cast))
            person_movies_lru set_person_movies.

Definition _movie_cast_cached : Z → M (list Z) :=
  lru_cache (λ movie_id, let* cast := tmdb_get (movie, movie_id) in ret (sorted_ids cast))
            movie_cast_lru set_movie_cast.

(** ** One search direction *)

(** [q], [parents] and [visited] of one side ([qa, pa, visited_a] or
    [qb, pb, visited_b]). A parent of [None] marks the root. *)
Record side := Side {
  q : list Node;
  parents : gmap Node (option Node);
  visited : gset Node
}.

(** [visited.add(nxt); parents[nxt] = (node_type, node_id); q.append(nxt)] *)
Definition discover (nxt node : Node) (s : side) : side :=
  Side (q s ++ [nxt]) (<[nxt := Some node]> (parents s)) ({[nxt]} ∪ visited s).

(** The inner [for] loop of [expand]: the neighbours [ids] of [node], all of
    type [t]. Returns the meeting node as soon as one is found. *)
Fixpoint scan (t : ntype) (ids : list Z) (node : Node)
    (other_visited : gset Node) (s : side) : option Node * side :=
  match ids with
  | [] => (None, s)
  | i :: ids' =>
      let nxt := (t, i) in
      if decide (nxt ∈ visited s) then scan t ids' node other_visited s
      else
        let s' := discover nxt node s in
        if decide (nxt ∈ other_visited) then (Some nxt, s')
        else scan t ids' node other_visited s'
  end.

(** The outer loop of [expand], [for _ in range(len(q))], with [n]
    iterations left. *)
Fixpoint expand_loop (n : nat) (s : side) (other_visited : gset Node)
    : M (option Node * side) :=
  match n with
  | O => ret (None, s)
  | S n' =>
      match q s with
      | [] => raise IndexError
      | (node_type, node_id) :: rest =>
          let* _ := log (EDequeue (node_type, node_id)) in
          let* ids := match node_type with
                      | person => _person_movies_cached node_id
                      | movie => _movie_cast_cached node_id
                      end in
          match scan (other_type node_type) ids (node_type, node_id) other_visited
                     (Side rest (parents s) (visited s)) with
          | (Some nxt, s') => ret (Some nxt, s')
          | (None, s') => expand_loop n' s' other_visited
          end
      end
  end.

Definition expand (s : side) (other_visited : gset Node) : M (option Node * side) :=
  expand_loop (length (q s)) s other_visited.

(** ** Path reconstruction *)

(** [while cur is not None: l.append(cur); cur = parents.get(cur)] *)
Fixpoint climb (fuel : nat) (parents : gmap Node (option Node)) (cur : option Node)
    : option (list Node) :=
  match cur with
  | None => Some []
  | Some c =>
      match fuel with
      | O => None
      | S fuel' => (c ::.) <$> climb fuel' parents (mjoin (parents !! c))
      end
  end.

Definition reconstruct (fuel : nat) (pa pb : gmap Node (option Node)) (meet : Node)
    : option (list Node) :=
  left ← climb fuel pa (Some meet) ;
  right ← climb fuel pb (mjoin (pb !! meet)) ;
  Some (reverse left ++ right).

Definition reconstruct_m (fuel : nat) (pa pb : gmap Node (option Node)) (meet : Node)
    : M (option (list Node)) :=
  match reconstruct fuel pa pb meet with
  | Some path => ret (Some path)
  | None => out_of_fuel
  end.

(** ** The search *)

(** [while qa and qb and depth <= max_edges]. [fuel] bounds the number of
    iterations, [rfuel] the loops of [reconstruct]. *)
Fixpoint search_loop (fuel rfuel : nat) (max_edges depth : Z) (a b : side)
    : M (option (list Node)) :=
  if decide (q a ≠ [] ∧ q b ≠ [] ∧ depth ≤ max_edges) then
    match fuel with
    | O => out_of_fuel
    | S fuel' =>
        let* _ := log (ERound depth) in
        let* ra := expand a (visited b) in
        match ra with
        | (Some meet, a') => reconstruct_m rfuel (parents a') (parents b) meet
        | (None, a') =>
            let* rb := expand b (visited a') in
            match rb with
            | (Some meet, b') => reconstruct_m rfuel (parents a') (parents b') meet
            | (None, b') => search_loop fuel' rfuel max_edges (depth + 1) a' b'
            end
        end
    end
  else ret None.

Definition root (id : Z) : side :=
  Side [(person, id)] {[(person, id) := None]} {[(person, id)]}.

Definition bidir_bfs_people (fuel : nat) (source_id target_id max_edges : Z)
    : M (option (list Node)) :=
  if decide (source_id = target_id) then ret (Some [(person, source_id)])
  else search_loop fuel fuel max_edges 0 (root source_id) (root target_id).

End Search.

(** ** Example providers *)

(** The provider of a finite table of (person, movie) credits: every id
    resolves, and an id without credits has an empty cast list. *)
Definition tmdb_of (credits : list (Z * Z)) (n : Node) : response :=
  match n.1 with
  | person => Cast (snd <$> filter (λ c, c.1 = n.2) credits)
  | movie => Cast (fst <$> filter (λ c, c.2 = n.2) credits)
  end.

Definition cold : world := World [] [] [].

(** Person(1)-Movie(10)-Person(2)-Movie(20)-Person(3). *)
Definition chain_graph : list (Z * Z) := [(1, 10); (2, 10); (2, 20); (3, 20)].

(** ** The graph the provider induces *)

Section Graph.

Variable tmdb : Node → response.

(** The neighbour set of a node, as the cached functions give it: the
    nodes of the other type whose ids the provider lists, ascending. A node
    the provider does not resolve has no neighbours. *)
Definition neighbours (u : Node) : list Node :=
  match tmdb u with
  | Cast cast => (λ i, (other_type u.1, i)) <$> sorted_ids cast
  | Failed _ => []
  end.

Definition adj (u v : Node) : Prop := v ∈ neighbours u.

(** Every consecutive pair is an edge: the later node is in the neighbour
    set of the former. *)
Fixpoint linked (l : list Node) : Prop :=
  match l with
  | u :: l' => match l' with v :: _ => adj u v ∧ linked l' | [] => True end
  | [] => True
  end.

(** Consecutive nodes have different types. *)
Fixpoint alternates (l : list Node) : Prop :=
  match l with
  | u :: l' => match l' with v :: _ => v.1 = other_type u.1 ∧ alternates l' | [] => True end
  | [] => True
  end.

Definition path_between (x y : Node) (l : list Node) : Prop :=
  head l = Some x ∧ last l = Some y ∧ linked l.

Definition edge_count (l : list Node) : nat := (length l - 1)%nat.

(** The provider lists a credit on both of its ends. *)
Definition symmetric : Prop := ∀ u v, adj u v → adj v u.

(** The provider resolves every id. *)
Definition resolves_all : Prop := ∀ n, ∃ cast, tmdb n = Cast cast.

(** [k] edges lead from [u] to [w]. *)
Inductive walk : nat → Node → Node → Prop :=
| walk_O u : walk 0 u u
| walk_S k u v w : walk k u v → adj v w → walk (S k) u w.

(** Every cache entry is what the provider answers for its key. *)
Definition coherent_lru (t : ntype) (c : lru) : Prop :=
  ∀ k v, (k, v) ∈ c → ∃ cast, tmdb (t, k) = Cast cast ∧ v = sorted_ids cast.

Definition coherent (w : world) : Prop :=
  coherent_lru person (person_movies_lru w) ∧ coherent_lru movie (movie_cast_lru w).

(** What a cached adjacency call answers when the cache is coherent. *)
Definition resolve (n : Node) : outcome (list Z) :=
  match tmdb n with
  | Failed e => Raise e
  | Cast cast => Return (sorted_ids cast)
  end.

(** The parent pointers lead from [v] up to the root [r] through [l]. *)
Inductive chain (pa : gmap Node (option Node)) (r : Node) : Node → list Node → Prop :=
| chain_root : pa !! r = Some None → chain pa r r [r]
| chain_step v p l :
    pa !! v = Some (Some p) → chain pa r p l → chain pa r v (v :: l).

End Graph.

(** ** Invariants of one search direction *)

(** The parent pointers form a tree over the visited nodes: the keys of
    [parents] are the visited nodes, every visited node reaches the root [r]
    through at most [D] nodes, and the queue holds visited nodes only. *)
Definition tree (r : Node) (D : nat) (s : side) : Prop :=
  (∀ v, v ∈ visited s ↔ is_Some (parents s !! v)) ∧
  (∀ v, v ∈ visited s → ∃ l, chain (parents s) r v l ∧ (length l ≤ D)%nat) ∧
  (∀ v, v ∈ q s → v ∈ visited s).

(** Every parent pointer is an edge of the graph, from the parent. *)
Definition edges_ok (tmdb : Node → response) (s : side) : Prop :=
  ∀ v p, parents s !! v = Some (Some p) → adj tmdb p v.

(** Every visited node is still queued or has all its neighbours visited. *)
Definition closed (tmdb : Node → response) (s : side) : Prop :=
  ∀ u, u ∈ visited s → u ∈ q s ∨ ∀ v, adj tmdb u v → v ∈ visited s.

(** Everything within [d] edges of the root is visited. *)
Definition ball (tmdb : Node → response) (r : Node) (d : nat) (s : side) : Prop :=
  ∀ k v, (k ≤ d)%nat → walk tmdb k r v → v ∈ visited s.

(** The events a run appended to the log. *)
Definition fetches (evs : list event) : list Node :=
  omap (λ e, match e with EFetch n => Some n | _ => None end) evs.
Definition dequeues (evs : list event) : list Node :=
  omap (λ e, match e with EDequeue n => Some n | _ => None end) evs.
Definition rounds (evs : list event) : list Z :=
  omap (λ e, match e with ERound d => Some d | _ => None end) evs.

(** ** Invariants of the search loop *)

(** What the loop has appended to the log of [w0] when it is about to start
    round [d] in [w]. *)
Definition at_round (w0 : world) (d : nat) (w : world) : Prop :=
  ∃ evs, trace w = trace w0 ++ evs ∧ length (rounds evs) = d.

(** Before round [d]: both sides are trees of depth [d]. *)
Definition level (max_edges : Z) (ra rb : Node) (w0 : world)
    (d : nat) (a b : side) (w : world) : Prop :=
  tree ra (S d) a ∧ tree rb (S d) b ∧ at_round w0 d w ∧
  (d = 0%nat ∨ Z.of_nat d ≤ max_edges + 1).

(** In round [d], after side A was expanded. *)
Definition half_level (max_edges : Z) (ra rb : Node) (w0 : world)
    (d : nat) (a b : side) (w : world) : Prop :=
  tree ra (S (S d)) a ∧ tree rb (S d) b ∧ at_round w0 (S d) w ∧
  Z.of_nat d ≤ max_edges.

(** A meeting in round [d]. *)
Definition meeting (max_edges : Z) (ra rb : Node) (w0 : world)
    (d : nat) (m : Node) (a b : side) (w : world) : Prop :=
  tree ra (S (S d)) a ∧ tree rb (S (S d)) b ∧ at_round w0 (S d) w ∧
  Z.of_nat d ≤ max_edges ∧ m ∈ visited a ∧ m ∈ visited b.

(** Before round [d], on coherent caches: the two sides are apart, and each
    has visited everything within [d] edges of its root. *)
Definition graph_level (tmdb : Node → response) (ra rb : Node)
    (d : nat) (a b : side) (w : world) : Prop :=
  coherent tmdb w ∧ edges_ok tmdb a ∧ edges_ok tmdb b ∧
  closed tmdb a ∧ closed tmdb b ∧ visited a ## visited b ∧
  ball tmdb ra d a ∧ ball tmdb rb d b.

Definition graph_half_level (tmdb : Node → response) (ra rb : Node)
    (d : nat) (a b : side) (w : world) : Prop :=
  coherent tmdb w ∧ edges_ok tmdb a ∧ edges_ok tmdb b ∧
  closed tmdb a ∧ closed tmdb b ∧ visited a ## visited b ∧
  ball tmdb ra (S d) a ∧ ball tmdb rb d b.

(** At a meeting the two chains of the meeting node are, together, no
    longer than any walk between the roots. *)
Definition graph_meeting (tmdb : Node → response) (ra rb : Node)
    (m : Node) (a b : side) (w : world) : Prop :=
  coherent tmdb w ∧ edges_ok tmdb a ∧ edges_ok tmdb b ∧
  ∀ la lb k, chain (parents a) ra m la → chain (parents b) rb m lb →
    walk tmdb k ra rb → (length la + length lb ≤ k + 2)%nat.

(** The result of [reconstruct] for a meeting, on [rfuel]. *)
Definition found (rfuel : nat) (a b : side) (m : Node) : outcome (option (list Node)) :=
  match reconstruct rfuel (parents a) (parents b) m with
  | Some path => Return (Some path)
  | None => OutOfFuel
  end.

(** A computation whose result does not depend on what the caches hold, as
    long as they hold answers of the provider, and which leaves them so. *)
Definition cache_independent {A} (tmdb : Node → response) (m : M A) : Prop :=
  ∀ w1 w2, coherent tmdb w1 → coherent tmdb w2 →
    (m w1).1 = (m w2).1 ∧ coherent tmdb (m w1).2.

(** The cache of each node type, and the cached call for a node. *)
Definition cache_of (t : ntype) (w : world) : lru :=
  match t with person => person_movies_lru w | movie => movie_cast_lru w end.

Definition set_cache (t : ntype) (c : lru) (w : world) : world :=
  match t with person => set_person_movies c w | movie => set_movie_cast c w end.

Definition fetch (tmdb : Node → response) (n : Node) : M (list Z) :=
  match n.1 with
  | person => _person_movies_cached tmdb n.2
  | movie => _movie_cast_cached tmdb n.2
  end.

Definition logged (e : event) (w : world) : world :=
  World (person_movies_lru w) (movie_cast_lru w) (trace w ++ [e]).

(** The cache after a miss stored [(k, v)]. *)
Definition lru_store (k : Z) (v : list Z) (c : lru) : lru :=
  (k, v) :: (if decide (maxsize ≤ Z.of_nat (length c)) then removelast c else c).

(** The keys of a cache are distinct and within capacity. *)
Definition lru_wf (c : lru) : Prop :=
  NoDup c.*1 ∧ Z.of_nat (length c) ≤ maxsize.

(** A sequence of cached calls, one after the other. *)
Definition lookups (tmdb : Node → response) (ns : list Node) (w : world) : world :=
  foldl (λ w n, (fetch tmdb n w).2) w ns.

(** The keys of the cached calls [ns] that are for nodes of type [t] and
    that the provider answers, in the order of the calls: the accesses of
    the cache of type [t], reads and writes. *)
Definition answered (tmdb : Node → response) (t : ntype) (ns : list Node) : list Z :=
  omap (λ n, if decide (n.1 = t)
             then match tmdb n with Cast _ => Some n.2 | Failed _ => None end
             else None) ns.

(** The distinct keys of a sequence of accesses, the most recently
    accessed key first: [remove_dups] keeps the last access of each key. *)
Definition recent (ks : list Z) : list Z := reverse (remove_dups ks).

(** A provider without credits, and the world after the cached movie lists
    of the people 1 to 10000 were asked for, in this order. *)
Definition nobody : Node → response := tmdb_of [].

Definition people_cached : world :=
  lookups nobody ((λ i, (person, i)) <$> seqZ 1 maxsize) cold.

(** A provider that fails with [e] on the node [bad] and answers like
    [tmdb] on every other node. *)
Definition unresolved (bad : Node) (e : exn) (tmdb : Node → response) : Node → response :=
  λ n, if decide (n = bad) then Failed e else tmdb n.

(** The chain, with person 1 in the cast list of movie 20, while the movie
    credits of person 1 do not list movie 20: a credit that the provider
    lists on one of its ends only. *)
Definition one_way : Node → response :=
  λ n, if decide (n = (movie, 20)) then Cast [1; 2; 3] else tmdb_of chain_graph n.

(** The chain, with a second movie, 11, in the movie credits of person 1,
    for which the provider answers 404. *)
Definition dead_link : Node → response :=
  unresolved (movie, 11) (HTTPError 404) (tmdb_of ((1, 11) :: chain_graph)).

(** The chain with a second movie, 21, of person 3, and the side of person
    3 when its round 1 starts in the search from person 1: the two movies
    are queued. [fork_other] is what the side of person 1 has visited
    then. *)
Definition fork_graph : list (Z * Z) :=
  [(1, 10); (2, 10); (2, 20); (3, 20); (3, 21); (4, 21)].

Definition fork_side : side :=
  Side [(movie, 20); (movie, 21)]
       (<[(movie, 21) := Some (person, 3)]>
          (<[(movie, 20) := Some (person, 3)]> {[(person, 3) := None]}))
       {[(person, 3); (movie, 20); (movie, 21)]}.

Definition fork_other : gset Node := {[(person, 1); (movie, 10); (person, 2)]}.

(** A computation that only appends to the log and that raises the failure
    of every provider call that failed during it. *)
Definition surfaces {A} (tmdb : Node → response) (m : M A) : Prop :=
  ∀ w, ∃ evs, trace (m w).2 = trace w ++ evs ∧
    ∀ n e, EFetch n ∈ evs → tmdb n = Failed e → (m w).1 = Raise e.

(** Both caches are within capacity, with distinct keys. *)
Definition caches_wf (w : world) : Prop :=
  lru_wf (person_movies_lru w) ∧ lru_wf (movie_cast_lru w).

(** A computation that keeps both caches so. *)
Definition keeps_wf {A} (m : M A) : Prop := ∀ w, caches_wf w → caches_wf (m w).2.

(** ** Helpers of the page *)

(** A [datetime.date]. *)
Record date := Date { year : Z; month : Z; day : Z }.

(** [d1 <= d2] on dates. *)
Definition date_le (d1 d2 : date) : Prop :=
  year d1 < year d2 ∨
  (year d1 = year d2 ∧ (month d1 < month d2 ∨ (month d1 = month d2 ∧ day d1 ≤ day d2))).

(** [(end.month, end.day) < (b.month, b.day)], on tuples. *)
Definition before_in_year (e b : date) : bool :=
  (month e <? month b) || ((month e =? month b) && (day e <? day b)).

(** What a call that may raise [ValueError] gives. *)
Inductive parsed (A : Type) :=
| ValueError
| Parsed (a : A).
Arguments ValueError {A}.
Arguments Parsed {A} a.

(** The truth value of an optional string: [None] and [""] are false. *)
Definition truthy (s : option string) : bool :=
  match s with
  | Some s => negb (String.eqb s "")
  | None => false
  end.

Section Helpers.

(** [datetime.strptime(s, "%Y-%m-%d").date()], [None] when it raises, and
    [date.today()]. *)
Variable strptime : string → option date.
Variable today : date.

(** The date [end] of [calc_age]. *)
Definition age_end (deathday : option string) : option date :=
  if truthy deathday then strptime (default "" deathday) else Some today.

Definition calc_age (birthday deathday : option string) : parsed (option Z) :=
  if negb (truthy birthday) then Parsed None
  else
    match strptime (default "" birthday) with
    | None => ValueError
    | Some b =>
        match age_end deathday with
        | None => ValueError
        | Some e =>
            Parsed (Some (year e - year b - (if before_in_year e b then 1 else 0)))
        end
    end.

End Helpers.

Definition img_url (path : option string) (size : string) : option string :=
  if truthy path
  then Some ("https://image.tmdb.org/t/p/" +:+ size +:+ default "" path)
  else None.

(** ** Suggestions *)

(** [a or b] on optional strings. *)
Definition py_or (a b : option string) : option string :=
  if truthy a then a else b.

(** [l[:limit]]: a negative [limit] counts from the end. *)
Definition py_take {A} (limit : Z) (l : list A) : list A :=
  if decide (0 ≤ limit) then take (Z.to_nat limit) l
  else take (length l - Z.to_nat (- limit)) l.

(** [", ".join(l)] *)
Fixpoint join (l : list string) : string :=
  match l with
  | [] => ""
  | [s] => s
  | s :: l' => s +:+ ", " +:+ join l'
  end.

(** An entry of the ["known_for"] list, an entry of the ["results"] list
    of a person search, and the details of a person. *)
Record known := Known { k_title : option string; k_name : option string }.

Record hit := Hit {
  h_id : Z;
  h_name : option string;
  h_known_for : list known
}.

Record details := Details {
  d_name : option string;
  d_birthday : option string;
  d_deathday : option string;
  d_profile_path : option string
}.

(** An entry of the list that [search_people] returns. *)
Record suggestion := Suggestion {
  s_id : Z;
  s_name : option string;
  s_age : option Z;
  s_known_for : string;
  s_profile_path : option string
}.

(** What [search_people] can raise: a failure of the provider, or the
    [ValueError] of a date that does not parse. *)
Inductive failure :=
| Provider (e : exn)
| BadDate.

Section Suggestions.

Variable strptime : string → option date.
Variable today : date.
(** [str.strip], the person search of the provider, and
    [get_person_details]. *)
Variable strip : string → string.
Variable search_person : string → exn + list hit.
Variable get_person_details : Z → exn + details.

Definition known_for_of (p : hit) : string :=
  join (take 3 ((λ k, default "" (py_or (py_or (k_title k) (k_name k)) (Some "")))
                  <$> h_known_for p)).

(** The body of the [for] loop of [search_people]. *)
Definition suggest (p : hit) : failure + suggestion :=
  match get_person_details (h_id p) with
  | inl e => inl (Provider e)
  | inr d =>
      match calc_age strptime today (d_birthday d) (d_deathday d) with
      | ValueError => inl BadDate
      | Parsed age =>
          inr (Suggestion (h_id p) (py_or (d_name d) (h_name p)) age
                 (known_for_of p) (d_profile_path d))
      end
  end.

(** The loop: [results] grows by one entry per hit. *)
Fixpoint suggest_all (hits : list hit) (results : list suggestion)
    : failure + list suggestion :=
  match hits with
  | [] => inr results
  | p :: hits' =>
      match suggest p with
      | inl f => inl f
      | inr r => suggest_all hits' (results ++ [r])
      end
  end.

Definition search_people (query : string) (limit : Z) : failure + list suggestion :=
  if String.eqb (strip query) "" then inr []
  else
    match search_person query with
    | inl e => inl (Provider e)
    | inr hits => suggest_all (py_take limit hits) []
    end.

End Suggestions.

(** A person search with two hits, the second of which has no details,
    for examples. *)
Definition search_demo (query : string) : exn + list hit :=
  inr [Hit 6384 (Some "Keanu Reeves") [Known (Some "The Matrix") None]; Hit 1 None []].

Definition details_demo (id : Z) : exn + details :=
  if decide (id = 6384)
  then inr (Details (Some "Keanu Reeves") (Some "1964-09-02") None None)
  else inl (HTTPError 404).

(** ** The chain of cards *)

(** What one column of the chain shows: the card of a node, or an arrow. *)
Inductive cell (A : Type) :=
| Card (it : A)
| Arrow.
Arguments Card {A} it.
Arguments Arrow {A}.

(** The loop that fills the columns, [for i, it in enumerate(items)], from
    the index [i] and the column [ci] on, over [ncols] columns; [None] when
    [cols[ci]] is out of range.  The column index starts at 0 and only
    grows, so the negative indices of Python never come in. *)
Fixpoint place {A} (items : list A) (n ncols i ci : Z) : option (list (Z * cell A)) :=
  match items with
  | [] => Some []
  | it :: rest =>
      if decide (0 ≤ ci < ncols) then
        if decide (i < n - 1) then
          if decide (0 ≤ ci + 1 < ncols) then
            (λ l, (ci, Card it) :: (ci + 1, Arrow) :: l)
              <$> place rest n ncols (i + 1) (ci + 1 + 1)
          else None
        else ((ci, Card it) ::.) <$> place rest n ncols (i + 1) (ci + 1)
      else None
  end.

(** [cols = st.columns(len(items) * 2 - 1)] and the loop from [ci = 0].
    The page gets here only in the branch where [path] is not empty. *)
Definition chain_columns {A} (items : list A) : option (list (Z * cell A)) :=
  place items (Z.of_nat (length items)) (Z.of_nat (length items) * 2 - 1) 0 0.

(** The cards of a list of columns. *)
Definition cards {A} (l : list (Z * cell A)) : list A :=
  omap (λ c, match c.2 with Card it => Some it | Arrow => None end) l.

(** ** Parent pointers as [reconstruct] follows them *)

(** [l] starts at [v], each next node is the parent of the one before,
    and the last node has none (no key, or the [None] of a root). *)
Fixpoint follows (pa : gmap Node (option Node)) (v : Node) (l : list Node) : Prop :=
  match l with
  | [] => False
  | x :: l' =>
      x = v ∧
      match l' with
      | [] => mjoin (pa !! v) = None
      | y :: _ => mjoin (pa !! v) = Some y ∧ follows pa y l'
      end
  end.

(** A [strptime] that knows two dates, for examples. *)
Definition strptime_demo (s : string) : option date :=
  if String.eqb s "1964-09-02" then Some (Date 1964 9 2)
  else if String.eqb s "2016-02-29" then Some (Date 2016 2 29)
  else None.

(** * Properties *)

(** ** The monad *)

Lemma bind_Return {A B} (m : M A) (k : A → M B) w a w1 :
  m w = (Return a, w1) → bind m k w = k a w1.
Proof. unfold bind. by intros ->. Qed.

Lemma bind_Raise {A B} (m : M A) (k : A → M B) w e w1 :
  m w = (Raise e, w1) → bind m k w = (Raise e, w1).
Proof. unfold bind. by intros ->. Qed.

Lemma bind_OutOfFuel {A B} (m : M A) (k : A → M B) w w1 :
  m w = (OutOfFuel, w1) → bind m k w = (OutOfFuel, w1).
Proof. unfold bind. by intros ->. Qed.

Lemma bind_inv {A B} (m : M A) (k : A → M B) w r w' :
  bind m k w = (r, w') →
  (∃ a w1, m w = (Return a, w1) ∧ k a w1 = (r, w'))
  ∨ (∃ e, m w = (Raise e, w') ∧ r = Raise e)
  ∨ (m w = (OutOfFuel, w') ∧ r = OutOfFuel).
Proof.
  unfold bind. destruct (m w) as [[|e|a] w1]; intros H.
  - right; right. by inversion H.
  - right; left. exists e. by inversion H.
  - left. eauto.
Qed.

(** ** Sorted ids *)

Lemma elem_of_sorted_ids (cast : list Z) i : i ∈ sorted_ids cast ↔ i ∈ cast.
Proof.
  unfold sorted_ids. rewrite merge_sort_Permutation. apply elem_of_remove_dups.
Qed.

Lemma sorted_ids_NoDup (cast : list Z) : NoDup (sorted_ids cast).
Proof.
  unfold sorted_ids. rewrite merge_sort_Permutation. apply NoDup_remove_dups.
Qed.

Lemma sorted_ids_Sorted (cast : list Z) : Sorted Z.le (sorted_ids cast).
Proof. unfold sorted_ids. apply (Sorted_merge_sort Z.le). Qed.

(** ** The caches *)

Lemma lru_find_Some k c v : lru_find k c = Some v → (k, v) ∈ c.
Proof.
  induction c as [|[k' v'] c IH]; simpl; [done|].
  case_decide as Hk.
  - intros [= ->]. subst. left.
  - intros H. right. auto.
Qed.

Lemma lru_find_None k c : lru_find k c = None ↔ k ∉ c.*1.
Proof.
  induction c as [|[k' v'] c IH]; simpl.
  - split; [intros _; apply not_elem_of_nil | done].
  - case_decide as Hk.
    + subst k'. split; [done|]. intros H. exfalso. apply H. left.
    + rewrite IH, not_elem_of_cons. naive_solver.
Qed.

Lemma lru_find_other k k' v c :
  k' ≠ k → lru_find k' ((k, v) :: c) = lru_find k' c.
Proof. intros H. simpl. by rewrite decide_False. Qed.


Lemma elem_of_removelast {A} (l : list A) x : x ∈ removelast l → x ∈ l.
Proof.
  induction l as [|a l IH]; [done|].
  destruct l as [|b l]; [by intros ?%elem_of_nil|].
  change (removelast (a :: b :: l)) with (a :: removelast (b :: l)).
  intros [->|H]%elem_of_cons; [left | right; auto].
Qed.

Lemma removelast_snoc {A} (l : list A) x : removelast (l ++ [x]) = l.
Proof. apply removelast_last. Qed.

Lemma length_removelast {A} (l : list A) :
  l ≠ [] → S (length (removelast l)) = length l.
Proof.
  induction l as [|a l IH]; [done|]. intros _.
  destruct l as [|b l]; [done|].
  change (removelast (a :: b :: l)) with (a :: removelast (b :: l)).
  simpl length. f_equal. by apply IH.
Qed.

Section Caches.

Variable tmdb : Node → response.

Lemma tmdb_get_run n w :
  tmdb_get tmdb n w =
  (match tmdb n with Failed e => Raise e | Cast ids => Return ids end,
   logged (EFetch n) w).
Proof. unfold tmdb_get, bind, log, logged. simpl. by destruct (tmdb n). Qed.

Lemma cache_of_set t c w : cache_of t (set_cache t c w) = c.
Proof. by destruct t. Qed.

Lemma cache_of_set_other t c w : cache_of (other_type t) (set_cache t c w) = cache_of (other_type t) w.
Proof. by destruct t. Qed.

Lemma cache_of_set_ne t t' c w : t ≠ t' → cache_of t (set_cache t' c w) = cache_of t w.
Proof. by destruct t, t'. Qed.

Lemma cache_of_logged t e w : cache_of t (logged e w) = cache_of t w.
Proof. by destruct t. Qed.

Lemma trace_set_cache t c w : trace (set_cache t c w) = trace w.
Proof. by destruct t. Qed.

(** A hit answers from the cache, makes the entry the most recent one and
    does not call the provider. *)
Lemma fetch_hit t k w v :
  lru_find k (cache_of t w) = Some v →
  fetch tmdb (t, k) w = (Return v, set_cache t ((k, v) :: lru_remove k (cache_of t w)) w).
Proof.
  intros H. destruct t; simpl in *;
    unfold fetch, _person_movies_cached, _movie_cast_cached, lru_cache; simpl;
    by rewrite H.
Qed.

(** A miss calls the provider and stores what it answered. *)
Lemma fetch_miss t k w cast :
  lru_find k (cache_of t w) = None → tmdb (t, k) = Cast cast →
  fetch tmdb (t, k) w =
  (Return (sorted_ids cast),
   set_cache t (lru_store k (sorted_ids cast) (cache_of t w)) (logged (EFetch (t, k)) w)).
Proof.
  intros H Ht. destruct t; simpl in *;
    unfold fetch, _person_movies_cached, _movie_cast_cached, lru_cache; simpl;
    rewrite H; unfold bind; rewrite tmdb_get_run, Ht; reflexivity.
Qed.

(** A miss on which the provider fails stores nothing. *)
Lemma fetch_fail t k w e :
  lru_find k (cache_of t w) = None → tmdb (t, k) = Failed e →
  fetch tmdb (t, k) w = (Raise e, logged (EFetch (t, k)) w).
Proof.
  intros H Ht. destruct t; simpl in *;
    unfold fetch, _person_movies_cached, _movie_cast_cached, lru_cache; simpl;
    rewrite H; unfold bind; rewrite tmdb_get_run, Ht; reflexivity.
Qed.

Lemma coherent_lru_store t k cast c :
  tmdb (t, k) = Cast cast → coherent_lru tmdb t c →
  coherent_lru tmdb t (lru_store k (sorted_ids cast) c).
Proof.
  intros Ht Hc k' v' [[= -> ->]|Hin]%elem_of_cons; [eauto|].
  apply Hc. case_decide; [by apply elem_of_removelast | done].
Qed.

Lemma coherent_lru_touch t k v c :
  (k, v) ∈ c → coherent_lru tmdb t c →
  coherent_lru tmdb t ((k, v) :: lru_remove k c).
Proof.
  intros Hin Hc k' v' [[= -> ->]|Hin']%elem_of_cons; [auto|].
  apply Hc. unfold lru_remove in Hin'. by apply list_elem_of_filter in Hin' as [_ ?].
Qed.

Lemma coherent_cache_of w :
  coherent tmdb w ↔ ∀ t, coherent_lru tmdb t (cache_of t w).
Proof.
  split.
  - intros [Hp Hm] []; done.
  - intros H. split; [apply (H person) | apply (H movie)].
Qed.

Lemma coherent_set_cache t c w :
  coherent tmdb w → coherent_lru tmdb t c → coherent tmdb (set_cache t c w).
Proof. intros [Hp Hm] Hc. destruct t; split; done. Qed.

Lemma coherent_logged e w : coherent tmdb w → coherent tmdb (logged e w).
Proof. done. Qed.

(** On a coherent cache a lookup answers what the provider answers, hit or
    miss, and leaves the cache coherent. *)
Lemma fetch_coherent n w :
  coherent tmdb w →
  (fetch tmdb n w).1 = resolve tmdb n ∧ coherent tmdb (fetch tmdb n w).2.
Proof.
  intros Hw. destruct n as [t k].
  pose proof (proj1 (coherent_cache_of w) Hw t) as Hc.
  destruct (lru_find k (cache_of t w)) as [v|] eqn:Hf.
  - rewrite (fetch_hit _ _ _ _ Hf). simpl.
    apply lru_find_Some in Hf as Hin.
    destruct (Hc _ _ Hin) as (cast & Ht & ->).
    split; [unfold resolve; by rewrite Ht|].
    apply coherent_set_cache; [done|]. by apply coherent_lru_touch.
  - unfold resolve. destruct (tmdb (t, k)) as [e|cast] eqn:Ht.
    + by rewrite (fetch_fail _ _ _ _ Hf Ht).
    + rewrite (fetch_miss _ _ _ _ Hf Ht). simpl. split; [done|].
      apply coherent_set_cache; [done|].
      apply coherent_lru_store; [done|]. by destruct t.
Qed.

End Caches.

(** ** The inner loop of [expand] *)

Section Scan.

Variables (t : ntype) (u : Node) (other : gset Node).

(** What [scan] did, in terms of the nodes [new] it discovered, in order. *)
Definition scanned (ids : list Z) (s : side) (r : option Node) (s' : side)
    (new : list Node) : Prop :=
  q s' = q s ++ new ∧
  visited s' = visited s ∪ list_to_set new ∧
  (∀ x, parents s' !! x = if decide (x ∈ new) then Some (Some u) else parents s !! x) ∧
  NoDup new ∧
  (∀ x, x ∈ new → x ∉ visited s ∧ ∃ i, i ∈ ids ∧ x = (t, i)) ∧
  match r with
  | None => (∀ i, i ∈ ids → (t, i) ∈ visited s') ∧ (∀ x, x ∈ new → x ∉ other)
  | Some m => m ∈ other ∧ ∃ new0, new = new0 ++ [m] ∧ ∀ x, x ∈ new0 → x ∉ other
  end.

Lemma scan_scanned ids s r s' :
  scan t ids u other s = (r, s') → ∃ new, scanned ids s r s' new.
Proof.
  revert s r s'. induction ids as [|i ids IH]; intros s r s'; simpl.
  - intros [= <- <-]. exists []. unfold scanned.
    rewrite app_nil_r. split_and!; try set_solver. constructor.
  - case_decide as Hv.
    { intros H. destruct (IH _ _ _ H) as (new & Hq & Hvis & Hpa & Hnd & Hnew & Hr).
      exists new. split_and!; try done.
      - intros y Hy. destruct (Hnew y Hy) as (? & j & ? & ?). split; [done|].
        exists j. split; [by right | done].
      - destruct r as [m|]; [done|]. destruct Hr as [Hall Hoth]. split; [|done].
        intros j [->|Hj]%elem_of_cons; [set_solver | auto]. }
    case_decide as Ho.
    { intros [= <- <-]. exists [(t, i)]. unfold scanned, discover.
      cbn [q parents visited]. split_and!.
      - done.
      - set_solver.
      - intros y. destruct (decide (y = (t, i))) as [->|Hy].
        + rewrite lookup_insert_eq. by rewrite decide_True by set_solver.
        + rewrite lookup_insert_ne by done. by rewrite decide_False by set_solver.
      - apply NoDup_singleton.
      - intros y ->%list_elem_of_singleton. split; [done|].
        exists i. split; [left | done].
      - done.
      - exists []. split; [done | set_solver]. }
    intros H. destruct (IH _ _ _ H) as (new & Hq & Hvis & Hpa & Hnd & Hnew & Hr).
    unfold discover in *. cbn [q parents visited] in *. exists ((t, i) :: new).
    assert ((t, i) ∉ new) as Hfresh.
    { intros Hin. destruct (Hnew _ Hin) as [Hn _]. set_solver. }
    split_and!.
    + by rewrite Hq, <- app_assoc.
    + rewrite Hvis. set_solver.
    + intros y. rewrite Hpa. destruct (decide (y = (t, i))) as [->|Hy].
      * rewrite decide_False by done. rewrite lookup_insert_eq.
        by rewrite decide_True by left.
      * rewrite lookup_insert_ne by done.
        destruct (decide (y ∈ new)).
        -- by rewrite decide_True by (by right).
        -- rewrite decide_False; [done|]. by intros [?|?]%elem_of_cons.
    + by constructor.
    + intros y [->|Hy]%elem_of_cons.
      * split; [done|]. exists i. split; [left | done].
      * destruct (Hnew _ Hy) as (Hn & j & ? & ?). split; [set_solver|].
        exists j. split; [by right | done].
    + destruct r as [m|].
      * destruct Hr as (Hm & new0 & -> & Hn0). split; [done|].
        exists ((t, i) :: new0). split; [done|].
        intros y [->|Hy]%elem_of_cons; auto.
      * destruct Hr as [Hall Hoth]. split.
        -- intros j [->|Hj]%elem_of_cons; [set_solver | auto].
        -- intros y [->|Hy]%elem_of_cons; auto.
Qed.

End Scan.

(** ** The outer loop of [expand] *)

Section Expand.

Variable tmdb : Node → response.

Lemma expand_loop_S n s other w :
  expand_loop tmdb (S n) s other w =
  match q s with
  | [] => (Raise IndexError, w)
  | u :: rest =>
      match fetch tmdb u (logged (EDequeue u) w) with
      | (Return ids, w1) =>
          match scan (other_type u.1) ids u other (Side rest (parents s) (visited s)) with
          | (Some nxt, s') => (Return (Some nxt, s'), w1)
          | (None, s') => expand_loop tmdb n s' other w1
          end
      | (Raise e, w1) => (Raise e, w1)
      | (OutOfFuel, w1) => (OutOfFuel, w1)
      end
  end.
Proof.
  simpl. destruct (q s) as [|[ty i] rest]; [done|].
  unfold bind at 1. unfold log. fold (logged (EDequeue (ty, i)) w).
  unfold bind, fetch. cbn [fst snd].
  destruct ty; cbn [other_type];
    match goal with |- context [?f i (logged ?e w)] =>
      destruct (f i (logged e w)) as [[|e'|ids] w1] end; try done;
    by destruct (scan _ ids _ other _) as [[m|] s'].
Qed.

(** An invariant [I] of the outer loop, with the number of iterations left,
    holds when the loop ends without a meeting; [Q] holds of a meeting. *)
Lemma expand_loop_rule (other : gset Node)
    (I : nat → side → world → Prop) (Q : Node → side → world → Prop) :
  (∀ n s w u rest ids w1 r s1,
      I (S n) s w → q s = u :: rest →
      fetch tmdb u (logged (EDequeue u) w) = (Return ids, w1) →
      scan (other_type u.1) ids u other (Side rest (parents s) (visited s)) = (r, s1) →
      match r with None => I n s1 w1 | Some m => Q m s1 w1 end) →
  ∀ n s w r s' w',
    I n s w → expand_loop tmdb n s other w = (Return (r, s'), w') →
    match r with None => I 0%nat s' w' | Some m => Q m s' w' end.
Proof.
  intros Hstep. induction n as [|n IH]; intros s w r s' w' HI.
  - intros [= <- <- <-]. done.
  - rewrite expand_loop_S. destruct (q s) as [|u rest] eqn:Hq; [done|].
    destruct (fetch tmdb u (logged (EDequeue u) w)) as [[|e|ids] w1] eqn:Hf; try done.
    destruct (scan _ ids u other _) as [[m|] s1] eqn:Hs.
    + intros [= <- <- <-]. apply (Hstep _ _ _ _ _ _ _ _ _ HI Hq Hf Hs).
    + intros H. eapply IH; [|exact H]. apply (Hstep _ _ _ _ _ _ _ _ _ HI Hq Hf Hs).
Qed.

End Expand.

(** ** Parent chains *)

Lemma chain_mono pa pa' r v l :
  chain pa r v l → (∀ x, is_Some (pa !! x) → pa' !! x = pa !! x) →
  chain pa' r v l.
Proof.
  intros Hc Hsub. induction Hc as [Hr|v p l Hv Hc IH].
  - apply chain_root. by rewrite Hsub; [|rewrite Hr].
  - apply chain_step with p; [|done]. by rewrite Hsub; [|rewrite Hv].
Qed.

Lemma chain_head pa r v l : chain pa r v l → head l = Some v.
Proof. by destruct 1. Qed.

Lemma chain_last pa r v l : chain pa r v l → last l = Some r.
Proof.
  induction 1 as [|v p l Hv Hc IH]; [done|].
  destruct l as [|x l]; [inversion Hc|]. by rewrite last_cons_cons.
Qed.

Lemma chain_nonempty pa r v l : chain pa r v l → l ≠ [].
Proof. by destruct 1. Qed.

Lemma climb_None fuel pa : climb fuel pa None = Some [].
Proof. by destruct fuel. Qed.

(** With enough fuel [climb] walks the whole chain. *)
Lemma climb_chain fuel pa r v l :
  chain pa r v l → (length l ≤ fuel)%nat → climb fuel pa (Some v) = Some l.
Proof.
  intros Hc. revert fuel. induction Hc as [Hr|v p l Hv Hc IH]; intros fuel Hf.
  - destruct fuel as [|fuel]; [simpl in Hf; lia|]. simpl. rewrite Hr. simpl.
    by rewrite climb_None.
  - destruct fuel as [|fuel]; [simpl in Hf; lia|]. simpl. rewrite Hv. simpl.
    rewrite IH; [done|]. simpl in Hf. lia.
Qed.

(** When the chain is longer than the fuel, [climb] runs out. *)
Lemma climb_chain_short fuel pa r v l :
  chain pa r v l → (fuel < length l)%nat → climb fuel pa (Some v) = None.
Proof.
  intros Hc. revert fuel. induction Hc as [Hr|v p l Hv Hc IH]; intros fuel Hf.
  - destruct fuel as [|fuel]; [done|]. simpl in Hf. lia.
  - destruct fuel as [|fuel]; [done|]. simpl. rewrite Hv. simpl.
    rewrite IH; [done|]. simpl in Hf. lia.
Qed.

Lemma tree_mono r D D' s : tree r D s → (D ≤ D')%nat → tree r D' s.
Proof.
  intros (H1 & H2 & H3) HD. split_and!; [done| |done].
  intros v Hv. destruct (H2 v Hv) as (l & Hl & Hlen). exists l. split; [done | lia].
Qed.

Lemma tree_root x : tree (person, x) 1 (root x).
Proof.
  unfold root. split_and!; cbn [q parents visited].
  - intros v. rewrite elem_of_singleton. split.
    + intros ->. by rewrite lookup_singleton_eq.
    + intros [o Ho]. apply lookup_singleton_Some in Ho. by destruct Ho.
  - intros v ->%elem_of_singleton. exists [(person, x)]. split; [|done].
    apply chain_root. by rewrite lookup_singleton_eq.
  - intros v ->%list_elem_of_singleton. set_solver.
Qed.

(** Scanning the neighbours of a node whose chain has room for one more
    node keeps the tree. *)
Lemma scanned_tree t u other ids r D rest pa vis res s1 new lu :
  tree r (S D) (Side rest pa vis) →
  chain pa r u lu → (length lu ≤ D)%nat →
  scanned t u other ids (Side rest pa vis) res s1 new →
  tree r (S D) s1 ∧ ∀ x, is_Some (pa !! x) → parents s1 !! x = pa !! x.
Proof.
  intros (H1 & H2 & H3) Hu Hlu (Hq & Hvis & Hpa & Hnd & Hnew & Hr).
  cbn [q parents visited] in *.
  assert (∀ x, is_Some (pa !! x) → parents s1 !! x = pa !! x) as Hsub.
  { intros x Hx. rewrite Hpa. rewrite decide_False; [done|].
    intros Hin. destruct (Hnew _ Hin) as [Hn _]. by apply Hn, H1. }
  split; [|done]. split_and!.
  - intros v. rewrite Hvis, Hpa, elem_of_union, elem_of_list_to_set.
    case_decide as Hin.
    + split; [by eauto | by left + right].
    + rewrite <- H1. tauto.
  - intros v. rewrite Hvis, elem_of_union, elem_of_list_to_set.
    destruct (decide (v ∈ new)) as [Hin|Hin].
    + intros _. exists (v :: lu). split; [|simpl; lia].
      apply chain_step with u.
      * rewrite Hpa. by rewrite decide_True.
      * by apply chain_mono with pa.
    + intros [Hv|Hv]; [|done].
      destruct (H2 v Hv) as (l & Hl & Hlen). exists l. split; [|done].
      by apply chain_mono with pa.
  - intros v. rewrite Hq, elem_of_app, Hvis, elem_of_union, elem_of_list_to_set.
    intros [Hv|Hv]; [left; auto | by right].
Qed.

(** ** [expand] keeps the tree *)

Section ExpandTree.

Variable tmdb : Node → response.

Lemma tree_dequeue r D u rest pa vis :
  tree r D (Side (u :: rest) pa vis) → tree r D (Side rest pa vis).
Proof.
  intros (H1 & H2 & H3). split_and!; [done..|].
  intros v Hv. apply H3. by right.
Qed.

(** One level deeper, chains are one node longer. A meeting node is a
    visited node of both sides. *)
Lemma expand_tree r D s other w res s' w' :
  tree r D s → expand tmdb s other w = (Return (res, s'), w') →
  tree r (S D) s' ∧
  match res with Some m => m ∈ visited s' ∧ m ∈ other | None => True end.
Proof.
  intros Ht Hex. unfold expand in Hex.
  pose (I := λ (n : nat) (s1 : side) (_ : world),
    tree r (S D) s1 ∧ (n ≤ length (q s1))%nat ∧
    ∀ v, v ∈ take n (q s1) → ∃ l, chain (parents s1) r v l ∧ (length l ≤ D)%nat).
  pose (Q := λ (m : Node) (s1 : side) (_ : world),
    tree r (S D) s1 ∧ m ∈ visited s1 ∧ m ∈ other).
  assert (match res with None => I 0%nat s' w' | Some m => Q m s' w' end) as Hres.
  { eapply (expand_loop_rule tmdb other I Q); [|..|exact Hex].
    - clear. intros n s w [ty i] rest ids w1 res s1 (Ht & Hn & Hold) Hq _ Hs.
      apply scan_scanned in Hs as [new Hsc].
      destruct s as [qs pa vis]. cbn [q parents visited] in *. subst qs.
      destruct (Hold (ty, i)) as (lu & Hlu & Hlen); [by left|].
      destruct (scanned_tree _ _ _ _ _ _ _ _ _ _ _ _ _
                  (tree_dequeue _ _ _ _ _ _ Ht) Hlu Hlen Hsc) as [Ht1 Hsub].
      destruct Hsc as (Hq1 & Hvis1 & Hpa1 & Hnd & Hnew & Hr).
      cbn [q parents visited] in *.
      destruct res as [m|].
      + split; [done|]. destruct Hr as (Hm & new0 & -> & _). split; [|done].
        rewrite Hvis1. set_solver.
      + split; [done|]. split.
        * rewrite Hq1, length_app. simpl in Hn. lia.
        * intros v Hv. rewrite Hq1 in Hv.
          rewrite take_app_le in Hv by (simpl in Hn; lia).
          destruct (Hold v) as (l & Hl & Hll).
          { rewrite firstn_cons. right. done. }
          exists l. split; [|done]. apply chain_mono with pa; [done|].
          intros x Hx. by apply Hsub.
    - split; [by apply tree_mono with D; [|lia]|]. split; [done|].
      intros v Hv. apply elem_of_take in Hv as (j & Hv & _).
      destruct Ht as (_ & H2 & H3). apply H2, H3.
      by eapply list_elem_of_lookup_2. }
  destruct res as [m|]; [by destruct Hres as (? & ? & ?) | by destruct Hres].
Qed.

End ExpandTree.

(** ** The ways the search loop ends *)

Lemma fetch_fuel tmdb n w w' : fetch tmdb n w ≠ (OutOfFuel, w').
Proof.
  destruct n as [[] k]; unfold fetch, _person_movies_cached, _movie_cast_cached,
    lru_cache; cbn [fst snd];
    match goal with |- context [lru_find k ?c] => destruct (lru_find k c) end;
    try done; unfold bind; rewrite tmdb_get_run; by destruct (tmdb _).
Qed.

Lemma expand_loop_fuel tmdb n s other w w' :
  expand_loop tmdb n s other w ≠ (OutOfFuel, w').
Proof.
  revert s w. induction n as [|n IH]; intros s w; [done|].
  rewrite expand_loop_S. destruct (q s) as [|u rest]; [done|].
  destruct (fetch tmdb u (logged (EDequeue u) w)) as [[|e|ids] w1] eqn:Hf; [|done|].
  - by apply fetch_fuel in Hf.
  - destruct (scan _ ids u other _) as [[m|] s1]; [done | apply IH].
Qed.

Section SearchLoop.

Variable tmdb : Node → response.
Variable max_edges : Z.
Variables (I J : nat → side → side → world → Prop).
Variable Q : nat → Node → side → side → world → Prop.

Hypothesis step_a : ∀ d a b w res a' w1,
  I d a b w → q a ≠ [] ∧ q b ≠ [] ∧ Z.of_nat d ≤ max_edges →
  expand tmdb a (visited b) (logged (ERound (Z.of_nat d)) w) = (Return (res, a'), w1) →
  match res with None => J d a' b w1 | Some m => Q d m a' b w1 end.

Hypothesis step_b : ∀ d a b w res b' w1,
  J d a b w →
  expand tmdb b (visited a) w = (Return (res, b'), w1) →
  match res with None => I (S d) a b' w1 | Some m => Q d m a b' w1 end.

Lemma reconstruct_m_found rfuel a b m w :
  reconstruct_m rfuel (parents a) (parents b) m w = (found rfuel a b m, w).
Proof. unfold reconstruct_m, found. by destruct (reconstruct _ _ _ _). Qed.

(** How a run of the loop that started under the invariant [I] can end. *)
Inductive ends (rfuel : nat) (dmax : nat)
    : outcome (option (list Node)) → world → Prop :=
| ends_none d a b w :
    I d a b w → ¬ (q a ≠ [] ∧ q b ≠ [] ∧ Z.of_nat d ≤ max_edges) →
    ends rfuel dmax (Return None) w
| ends_meet d m a b w :
    Q d m a b w → ends rfuel dmax (found rfuel a b m) w
| ends_raise_a d a b w e w' :
    I d a b w → q a ≠ [] ∧ q b ≠ [] ∧ Z.of_nat d ≤ max_edges →
    expand tmdb a (visited b) (logged (ERound (Z.of_nat d)) w) = (Raise e, w') →
    ends rfuel dmax (Raise e) w'
| ends_raise_b d a b w e w' :
    J d a b w → expand tmdb b (visited a) w = (Raise e, w') →
    ends rfuel dmax (Raise e) w'
| ends_fuel a b w :
    I dmax a b w → q a ≠ [] ∧ q b ≠ [] ∧ Z.of_nat dmax ≤ max_edges →
    ends rfuel dmax OutOfFuel w.

Lemma search_loop_ends fuel rfuel d a b w r w' :
  I d a b w →
  search_loop tmdb fuel rfuel max_edges (Z.of_nat d) a b w = (r, w') →
  ends rfuel (d + fuel) r w'.
Proof.
  revert d a b w r w'. induction fuel as [|fuel IH]; intros d a b w r w' HI.
  - simpl. case_decide as Hg.
    + intros [= <- <-]. rewrite Nat.add_0_r. by eapply ends_fuel.
    + intros [= <- <-]. by eapply ends_none.
  - simpl. case_decide as Hg; [|intros [= <- <-]; by eapply ends_none].
    unfold bind at 1. unfold log. fold (logged (ERound (Z.of_nat d)) w).
    unfold bind at 1.
    destruct (expand tmdb a (visited b) (logged (ERound (Z.of_nat d)) w))
      as [[|e|[[m|] a']] w1] eqn:Ha.
    + by apply expand_loop_fuel in Ha.
    + intros [= <- <-]. by eapply ends_raise_a.
    + pose proof (step_a _ _ _ _ _ _ _ HI Hg Ha) as HQ. cbn in HQ.
      rewrite reconstruct_m_found. intros [= <- <-]. by eapply ends_meet.
    + pose proof (step_a _ _ _ _ _ _ _ HI Hg Ha) as HJ. cbn in HJ.
      unfold bind at 1.
      destruct (expand tmdb b (visited a') w1) as [[|e|[[m|] b']] w2] eqn:Hb.
      * by apply expand_loop_fuel in Hb.
      * intros [= <- <-]. by eapply ends_raise_b.
      * pose proof (step_b _ _ _ _ _ _ _ HJ Hb) as HQ. cbn in HQ.
        rewrite reconstruct_m_found. intros [= <- <-]. by eapply ends_meet.
      * pose proof (step_b _ _ _ _ _ _ _ HJ Hb) as HI'. cbn in HI'.
        replace (Z.of_nat d + 1) with (Z.of_nat (S d)) by lia.
        intros H. replace (d + S fuel)%nat with (S d + fuel)%nat by lia.
        by eapply IH.
Qed.

End SearchLoop.

(** ** The events of a run *)

Lemma rounds_app evs1 evs2 : rounds (evs1 ++ evs2) = rounds evs1 ++ rounds evs2.
Proof. apply omap_app. Qed.

Lemma dequeues_app evs1 evs2 : dequeues (evs1 ++ evs2) = dequeues evs1 ++ dequeues evs2.
Proof. apply omap_app. Qed.

Lemma fetches_app evs1 evs2 : fetches (evs1 ++ evs2) = fetches evs1 ++ fetches evs2.
Proof. apply omap_app. Qed.

Section Events.

Variable tmdb : Node → response.

(** A cached call logs one provider call on a miss and nothing on a hit. *)
Lemma fetch_trace n w :
  trace (fetch tmdb n w).2 =
  trace w ++ match lru_find n.2 (cache_of n.1 w) with
             | Some _ => []
             | None => [EFetch n]
             end.
Proof.
  destruct n as [t k]. cbn [fst snd].
  destruct (lru_find k (cache_of t w)) as [v|] eqn:Hf.
  - rewrite (fetch_hit _ _ _ _ _ Hf). cbn [snd].
    by rewrite trace_set_cache, app_nil_r.
  - destruct (tmdb (t, k)) as [e|cast] eqn:Ht.
    + by rewrite (fetch_fail _ _ _ _ _ Hf Ht).
    + rewrite (fetch_miss _ _ _ _ _ Hf Ht). cbn [snd]. by rewrite trace_set_cache.
Qed.

Lemma fetch_trace_cases n w :
  ∃ evs, trace (fetch tmdb n w).2 = trace w ++ evs ∧ rounds evs = [] ∧ dequeues evs = [].
Proof.
  rewrite fetch_trace. destruct (lru_find _ _); eauto.
Qed.

(** [expand] dequeues a prefix of the queue it was given, all of it when no
    meeting is found, and starts no round. *)
Lemma expand_loop_trace n s other w r w' :
  (n ≤ length (q s))%nat →
  expand_loop tmdb n s other w = (r, w') →
  ∃ evs k, trace w' = trace w ++ evs ∧ rounds evs = [] ∧
    dequeues evs = take k (q s) ∧ (k ≤ n)%nat ∧
    ∀ s', r = Return (None, s') → k = n.
Proof.
  revert s w. induction n as [|n IH]; intros s w Hn.
  - intros [= <- <-]. exists [], 0%nat. rewrite app_nil_r. by rewrite take_0.
  - rewrite expand_loop_S. destruct (q s) as [|u rest] eqn:Hq; [simpl in Hn; lia|].
    destruct (fetch_trace_cases u (logged (EDequeue u) w)) as (evs1 & Htr & Hr1 & Hd1).
    destruct (fetch tmdb u (logged (EDequeue u) w)) as [[|e|ids] w1] eqn:Hf;
      cbn [snd] in Htr.
    + intros [= <- <-]. exists (EDequeue u :: evs1), 1%nat.
      rewrite Htr. cbn [logged trace]. rewrite <- app_assoc.
      split_and!; [done| | |lia|done].
      * change (EDequeue u :: evs1) with ([EDequeue u] ++ evs1). by rewrite rounds_app, Hr1.
      * change (EDequeue u :: evs1) with ([EDequeue u] ++ evs1). by rewrite dequeues_app, Hd1.
    + intros [= <- <-]. exists (EDequeue u :: evs1), 1%nat.
      rewrite Htr. cbn [logged trace]. rewrite <- app_assoc.
      split_and!; [done| | |lia|done].
      * change (EDequeue u :: evs1) with ([EDequeue u] ++ evs1). by rewrite rounds_app, Hr1.
      * change (EDequeue u :: evs1) with ([EDequeue u] ++ evs1). by rewrite dequeues_app, Hd1.
    + destruct (scan _ ids u other _) as [[m|] s1] eqn:Hs.
      * intros [= <- <-]. exists (EDequeue u :: evs1), 1%nat.
        rewrite Htr. cbn [logged trace]. rewrite <- app_assoc.
        split_and!; [done| | |lia|done].
        -- change (EDequeue u :: evs1) with ([EDequeue u] ++ evs1). by rewrite rounds_app, Hr1.
        -- change (EDequeue u :: evs1) with ([EDequeue u] ++ evs1). by rewrite dequeues_app, Hd1.
      * apply scan_scanned in Hs as (new & Hq1 & _). cbn [q] in Hq1.
        intros H. apply IH in H as (evs2 & k & Htr2 & Hr2 & Hd2 & Hk & Hall).
        2:{ rewrite Hq1, length_app. simpl in Hn. lia. }
        exists ((EDequeue u :: evs1) ++ evs2), (S k).
        rewrite Htr2, Htr. cbn [logged trace]. rewrite <- !app_assoc.
        split_and!; [done| | |lia|].
        -- change (EDequeue u :: evs1) with ([EDequeue u] ++ evs1).
           by rewrite !rounds_app, Hr1, Hr2.
        -- change (EDequeue u :: evs1) with ([EDequeue u] ++ evs1).
           rewrite !dequeues_app, Hd1, Hd2, Hq1. cbn.
           rewrite take_app_le by (simpl in Hn; lia). done.
        -- intros s' Hs'. f_equal. by eapply Hall.
Qed.

End Events.

(** ** The search keeps both trees *)

Lemma reconstruct_chain fuel pa pb ra rb m la lb :
  chain pa ra m la → chain pb rb m lb →
  (length la ≤ fuel)%nat → (length lb ≤ fuel)%nat →
  reconstruct fuel pa pb m = Some (reverse la ++ tail lb).
Proof.
  intros Ha Hb Hla Hlb. unfold reconstruct.
  rewrite (climb_chain _ _ _ _ _ Ha Hla). cbn.
  inversion Hb as [Hr|v p l Hv Hc]; subst.
  - rewrite Hr. cbn. by rewrite climb_None.
  - rewrite Hv. cbn. rewrite (climb_chain _ _ _ _ _ Hc); [done|]. simpl in Hlb. lia.
Qed.

Section SearchTree.

Variable tmdb : Node → response.
Variable max_edges : Z.
Variables ra rb : Node.
Variable w0 : world.

Lemma at_round_expand d w s other r w' :
  at_round w0 d w →
  expand tmdb s other (logged (ERound (Z.of_nat d)) w) = (r, w') →
  at_round w0 (S d) w'.
Proof.
  intros (evs & Htr & Hlen) Hex.
  apply expand_loop_trace in Hex as (evs' & k & Htr' & Hr & _); [|done].
  exists (evs ++ [ERound (Z.of_nat d)] ++ evs'). split.
  - rewrite Htr'. cbn [logged trace]. rewrite Htr. by rewrite <- !app_assoc.
  - rewrite !rounds_app, Hr, app_nil_r, length_app, Hlen. simpl. lia.
Qed.

Lemma at_round_expand_b d w s other r w' :
  at_round w0 d w → expand tmdb s other w = (r, w') → at_round w0 d w'.
Proof.
  intros (evs & Htr & Hlen) Hex.
  apply expand_loop_trace in Hex as (evs' & k & Htr' & Hr & _); [|done].
  exists (evs ++ evs'). split.
  - rewrite Htr', Htr. by rewrite <- !app_assoc.
  - by rewrite !rounds_app, Hr, app_nil_r.
Qed.

Lemma level_step_a d a b w res a' w1 :
  level max_edges ra rb w0 d a b w →
  q a ≠ [] ∧ q b ≠ [] ∧ Z.of_nat d ≤ max_edges →
  expand tmdb a (visited b) (logged (ERound (Z.of_nat d)) w) = (Return (res, a'), w1) →
  match res with
  | None => half_level max_edges ra rb w0 d a' b w1
  | Some m => meeting max_edges ra rb w0 d m a' b w1
  end.
Proof.
  intros (Ha & Hb & Hw & _) (_ & _ & Hd) Hex.
  pose proof (at_round_expand _ _ _ _ _ _ Hw Hex) as Hw1.
  apply (expand_tree _ _ _ _ _ _ _ _ _ Ha) in Hex as [Ha' Hm].
  destruct res as [m|].
  - destruct Hm. split_and!; try done. by apply tree_mono with (S d); [|lia].
  - by split_and!.
Qed.

Lemma level_step_b d a b w res b' w1 :
  half_level max_edges ra rb w0 d a b w →
  expand tmdb b (visited a) w = (Return (res, b'), w1) →
  match res with
  | None => level max_edges ra rb w0 (S d) a b' w1
  | Some m => meeting max_edges ra rb w0 d m a b' w1
  end.
Proof.
  intros (Ha & Hb & Hw & Hd) Hex.
  pose proof (at_round_expand_b _ _ _ _ _ _ Hw Hex) as Hw1.
  apply (expand_tree _ _ _ _ _ _ _ _ _ Hb) in Hex as [Hb' Hm].
  destruct res as [m|].
  - destruct Hm. by split_and!.
  - split_and!; try done. right. lia.
Qed.

(** A meeting is reconstructed from the two chains of the meeting node, on
    fuel that covers the depth of the trees. *)
Lemma meeting_found d m a b w rfuel :
  meeting max_edges ra rb w0 d m a b w → (d + 2 ≤ rfuel)%nat →
  ∃ la lb, chain (parents a) ra m la ∧ chain (parents b) rb m lb ∧
    (length la ≤ d + 2)%nat ∧ (length lb ≤ d + 2)%nat ∧
    found rfuel a b m = Return (Some (reverse la ++ tail lb)).
Proof.
  intros ((_ & Ha & _) & (_ & Hb & _) & _ & _ & Hma & Hmb) Hf.
  destruct (Ha m Hma) as (la & Hla & Hlen_a).
  destruct (Hb m Hmb) as (lb & Hlb & Hlen_b).
  exists la, lb. split_and!; [done|done|lia|lia|].
  unfold found. rewrite (reconstruct_chain _ _ _ _ _ _ _ _ Hla Hlb); [done|lia|lia].
Qed.

Lemma level_root x y w : level max_edges (person, x) (person, y) w 0 (root x) (root y) w.
Proof.
  split_and!; [apply tree_root..| |by left].
  exists []. by rewrite app_nil_r.
Qed.

End SearchTree.

(** ** Termination *)

(** Whatever the provider answers and whatever the caches hold, fuel above
    [max_edges + 1] is never used up, and the loop body is entered at most
    [max_edges + 1] times. *)
Lemma search_rounds tmdb fuel source_id target_id max_edges w r w' :
  max_edges + 2 ≤ Z.of_nat fuel →
  bidir_bfs_people tmdb fuel source_id target_id max_edges w = (r, w') →
  r ≠ OutOfFuel ∧
  ∃ evs, trace w' = trace w ++ evs ∧
    (length (rounds evs) ≤ Z.to_nat (max_edges + 1))%nat.
Proof.
  intros Hfuel. unfold bidir_bfs_people. case_decide as Hst.
  { intros [= <- <-]. split; [done|]. exists []. rewrite app_nil_r. split; [done|simpl; lia]. }
  intros Hrun.
  eapply (search_loop_ends tmdb max_edges
            (level max_edges (person, source_id) (person, target_id) w)
            (half_level max_edges (person, source_id) (person, target_id) w)
            (meeting max_edges (person, source_id) (person, target_id) w))
    with (d := 0%nat) in Hrun;
    [|apply level_step_a|apply level_step_b|apply level_root].
  destruct Hrun as [d a b w1 HI Hg|d m a b w1 HQ|d a b w1 e w2 HI Hg Hex
                   |d a b w1 e w2 HJ Hex|a b w1 HI Hg].
  - split; [done|]. destruct HI as (_ & _ & (evs & Htr & Hlen) & Hd).
    exists evs. split; [done|]. lia.
  - destruct (meeting_found _ _ _ _ _ _ _ _ _ fuel HQ) as (la & lb & _ & _ & _ & _ & ->).
    { destruct HQ as (_ & _ & _ & Hd & _). lia. }
    split; [done|]. destruct HQ as (_ & _ & (evs & Htr & Hlen) & Hd & _).
    exists evs. split; [done|]. lia.
  - split; [done|]. destruct HI as (_ & _ & Hw & _).
    destruct (at_round_expand _ _ _ _ _ _ _ _ Hw Hex) as (evs & Htr & Hlen).
    exists evs. split; [done|]. lia.
  - split; [done|]. destruct HJ as (_ & _ & Hw & Hd).
    destruct (at_round_expand_b _ _ _ _ _ _ _ _ Hw Hex) as (evs & Htr & Hlen).
    exists evs. split; [done|]. lia.
  - simpl in Hg. lia.
Qed.

(** ** Walks and paths *)

Section Walks.

Variable tmdb : Node → response.

Lemma adj_type u v : adj tmdb u v → v.1 = other_type u.1.
Proof.
  unfold adj, neighbours. destruct (tmdb u); [by intros ?%elem_of_nil|].
  intros (i & -> & _)%list_elem_of_fmap. done.
Qed.

Lemma adj_resolve u v :
  adj tmdb u v ↔ ∃ ids, resolve tmdb u = Return ids ∧ v.1 = other_type u.1 ∧ v.2 ∈ ids.
Proof.
  unfold adj, neighbours, resolve. destruct (tmdb u) as [e|cast].
  - split; [by intros ?%elem_of_nil | by intros (? & ? & _)].
  - rewrite list_elem_of_fmap. split.
    + intros (i & -> & Hi). eauto.
    + intros (ids & [= <-] & Hty & Hin). exists v.2. split; [|done].
      destruct v as [tv iv]. simpl in *. by rewrite Hty.
Qed.

Lemma walk_cons k u v w : adj tmdb u v → walk tmdb k v w → walk tmdb (S k) u w.
Proof.
  intros Huv Hw. induction Hw as [v|k v x w Hw IH Hxw].
  - apply walk_S with u; [apply walk_O | done].
  - apply walk_S with x; [by apply IH | done].
Qed.

Lemma walk_split i j u w :
  walk tmdb (i + j) u w → ∃ v, walk tmdb i u v ∧ walk tmdb j v w.
Proof.
  revert w. induction j as [|j IH]; intros w.
  - rewrite Nat.add_0_r. intros H. exists w. split; [done | apply walk_O].
  - rewrite Nat.add_succ_r. inversion 1 as [|k u' x w' Hw Hadj]; subst.
    destruct (IH _ Hw) as (v & Hv1 & Hv2). exists v. split; [done|].
    by apply walk_S with x.
Qed.

Lemma walk_sym k u v : symmetric tmdb → walk tmdb k u v → walk tmdb k v u.
Proof.
  intros Hsym. induction 1 as [u|k u x v Hw IH Hadj]; [apply walk_O|].
  apply walk_cons with x; [by apply Hsym | done].
Qed.

Lemma linked_cons u v l : adj tmdb u v → linked tmdb (v :: l) → linked tmdb (u :: v :: l).
Proof. by split. Qed.

Lemma linked_tail u l : linked tmdb (u :: l) → linked tmdb l.
Proof. destruct l; [done | by intros []]. Qed.

(** Two linked lists that share the node [m] join into one. *)
Lemma linked_join l1 m l2 :
  linked tmdb (l1 ++ [m]) → linked tmdb (m :: l2) → linked tmdb (l1 ++ m :: l2).
Proof.
  intros H1 H2. induction l1 as [|x l1 IH]; [done|].
  destruct l1 as [|y l1].
  - destruct H1 as [Hxm _]. by apply linked_cons.
  - destruct H1 as [Hxy H1]. split; [done|]. by apply IH.
Qed.

Lemma linked_snoc l p v :
  linked tmdb l → last l = Some p → adj tmdb p v → linked tmdb (l ++ [v]).
Proof.
  intros Hl Hp Hpv. apply last_Some in Hp as [l' ->].
  rewrite <- app_assoc. apply linked_join; [done|]. by split.
Qed.

Lemma linked_alternates l : linked tmdb l → alternates l.
Proof.
  induction l as [|u l IH]; [done|]. destruct l as [|v l]; [done|].
  intros [Huv Hl]. split; [by apply adj_type | by apply IH].
Qed.

(** A path of [k] edges is a walk of [k] edges. *)
Lemma path_walk x y l : path_between tmdb x y l → walk tmdb (edge_count l) x y.
Proof.
  intros (Hh & Hl & Hlink). revert x Hh Hlink.
  induction l as [|u l IH]; intros x Hh Hlink; [done|].
  injection Hh as ->. destruct l as [|v l].
  - injection Hl as ->. apply walk_O.
  - destruct Hlink as [Hxv Hlink]. rewrite last_cons_cons in Hl.
    unfold edge_count in *. simpl in *.
    apply walk_cons with v; [done|].
    rewrite Nat.sub_0_r in IH. by apply IH.
Qed.

(** Parent pointers that are edges make the reversed chain a path from the
    root. *)
Lemma chain_linked_rev pa r v l :
  (∀ x p, pa !! x = Some (Some p) → adj tmdb p x) →
  chain pa r v l → linked tmdb (reverse l).
Proof.
  intros Hpa. induction 1 as [|v p l Hv Hc IH]; [done|].
  rewrite reverse_cons. apply linked_snoc with p; [done| |by apply Hpa].
  rewrite last_reverse. by apply chain_head in Hc.
Qed.

Lemma chain_linked pa r v l :
  symmetric tmdb →
  (∀ x p, pa !! x = Some (Some p) → adj tmdb p x) →
  chain pa r v l → linked tmdb l.
Proof.
  intros Hsym Hpa. induction 1 as [|v p l Hv Hc IH]; [done|].
  destruct l as [|x l]; [done|]. apply chain_head in Hc as [= ->].
  split; [|done]. by apply Hsym, Hpa.
Qed.

Lemma chain_det pa r v l1 l2 : chain pa r v l1 → chain pa r v l2 → l1 = l2.
Proof.
  intros H1. revert l2. induction H1 as [Hr|v p l Hv Hc IH]; intros l2 H2.
  - inversion H2 as [|v' p' l' Hv']; [done|]. congruence.
  - inversion H2 as [Hr'|v' p' l' Hv' Hc']; subst; [congruence|].
    assert (p' = p) as -> by congruence. f_equal. by apply IH.
Qed.

End Walks.

(** ** [expand] on coherent caches *)

Section ExpandGraph.

Variable tmdb : Node → response.

Lemma fetch_resolve u w ids w1 :
  coherent tmdb w → fetch tmdb u w = (Return ids, w1) →
  resolve tmdb u = Return ids ∧ coherent tmdb w1.
Proof.
  intros Hw Hf. destruct (fetch_coherent tmdb u w Hw) as [Hr Hc].
  rewrite Hf in Hr, Hc. done.
Qed.

(** With every id resolved, [expand] returns. *)
Lemma expand_loop_returns n s other w :
  resolves_all tmdb → coherent tmdb w → (n ≤ length (q s))%nat →
  ∃ res s' w', expand_loop tmdb n s other w = (Return (res, s'), w').
Proof.
  intros Hall. revert s w. induction n as [|n IH]; intros s w Hw Hn; [by eexists _, _, _|].
  rewrite expand_loop_S. destruct (q s) as [|u rest] eqn:Hq; [simpl in Hn; lia|].
  destruct (fetch_coherent tmdb u (logged (EDequeue u) w)) as [Hr Hc]; [done|].
  destruct (fetch tmdb u (logged (EDequeue u) w)) as [r w1]. cbn [fst snd] in *.
  subst r. unfold resolve. destruct (Hall u) as [cast ->].
  destruct (scan _ _ u other _) as [[m|] s1] eqn:Hs; [by eexists _, _, _|].
  apply IH; [done|]. apply scan_scanned in Hs as (new & Hq1 & _).
  cbn [q] in Hq1. rewrite Hq1, length_app. simpl in Hn. lia.
Qed.

(** One level of one side: the caches stay coherent and the parent
    pointers stay edges; when no meeting is found the side stays closed and
    apart from the other side, and all neighbours of the nodes visited
    before are visited. *)
Lemma expand_graph s other w res s' w' :
  coherent tmdb w → edges_ok tmdb s → closed tmdb s → visited s ## other →
  expand tmdb s other w = (Return (res, s'), w') →
  coherent tmdb w' ∧ edges_ok tmdb s' ∧
  match res with
  | None =>
      closed tmdb s' ∧ visited s' ## other ∧ visited s ⊆ visited s' ∧
      ∀ u v, u ∈ visited s → adj tmdb u v → v ∈ visited s'
  | Some m => True
  end.
Proof.
  intros Hw He Hc Hd Hex. unfold expand in Hex.
  pose (I := λ (n : nat) (s1 : side) (w1 : world),
    coherent tmdb w1 ∧ edges_ok tmdb s1 ∧ closed tmdb s1 ∧ visited s1 ## other ∧
    visited s ⊆ visited s1 ∧ (n ≤ length (q s1))%nat ∧
    ∀ x, x ∈ drop n (q s1) → x ∉ visited s).
  pose (Q := λ (m : Node) (s1 : side) (w1 : world),
    coherent tmdb w1 ∧ edges_ok tmdb s1).
  assert (match res with None => I 0%nat s' w' | Some m => Q m s' w' end) as Hres.
  { eapply (expand_loop_rule tmdb other I Q); [|..|exact Hex].
    - clear. intros n s1 w1 u rest ids w2 res s2
        (Hw & He & Hc & Hd & Hsub & Hn & Hnew0) Hq Hf Hs.
      apply fetch_resolve in Hf as [Hr Hw2]; [|done].
      apply scan_scanned in Hs as (new & Hq2 & Hvis2 & Hpa2 & Hnd & Hnew & Hres).
      cbn [q parents visited] in *.
      assert (edges_ok tmdb s2) as He2.
      { intros v p. rewrite Hpa2. case_decide as Hin; [|apply He].
        intros [= <-]. destruct (Hnew _ Hin) as (_ & i & Hi & ->).
        apply adj_resolve. eauto. }
      destruct res as [m|]; [done|]. destruct Hres as [Hall Hoth].
      split_and!; [done|done| | | | |].
      + intros x. rewrite Hvis2, elem_of_union, elem_of_list_to_set.
        intros [Hx|Hx].
        * destruct (Hc x Hx) as [Hxq|Hxn].
          -- rewrite Hq in Hxq. apply elem_of_cons in Hxq as [->|Hxq].
             ++ right. intros v (ids' & Hr' & Hty & Hin)%adj_resolve.
                rewrite Hr in Hr'. injection Hr' as <-.
                destruct v as [tv iv]. simpl in *. subst tv.
                rewrite <- Hvis2. by apply Hall.
             ++ left. rewrite Hq2. apply elem_of_app. by left.
          -- right. intros v Hv. apply elem_of_union. left. by apply Hxn.
        * left. rewrite Hq2. apply elem_of_app. by right.
      + rewrite Hvis2. apply disjoint_union_l. split; [done|].
        intros x Hx%elem_of_list_to_set. by apply Hoth.
      + rewrite Hvis2. set_solver.
      + rewrite Hq2, length_app. rewrite Hq in Hn. simpl in Hn. lia.
      + intros x. rewrite Hq2. rewrite Hq in Hn. simpl in Hn.
        rewrite drop_app_le by lia. intros [Hx|Hx]%elem_of_app.
        * apply Hnew0. by rewrite Hq.
        * destruct (Hnew _ Hx) as [Hnv _]. set_solver.
    - split_and!; [done..|]. intros x. by rewrite drop_all; intros ?%elem_of_nil. }
  destruct res as [m|]; [by destruct Hres|].
  destruct Hres as (Hw' & He' & Hc' & Hd' & Hsub & _ & Hnew).
  split_and!; try done.
  intros u v Hu Huv. destruct (Hc' u) as [Huq|Hun]; [by apply Hsub| |by apply Hun].
  rewrite drop_0 in Hnew. by apply Hnew in Huq.
Qed.

End ExpandGraph.

(** ** The search on coherent caches *)

Section SearchGraph.

Variable tmdb : Node → response.
Hypothesis tmdb_symmetric : symmetric tmdb.

Lemma ball_step r d s s' :
  ball tmdb r d s → visited s ⊆ visited s' →
  (∀ u v, u ∈ visited s → adj tmdb u v → v ∈ visited s') →
  ball tmdb r (S d) s'.
Proof.
  intros Hb Hsub Hnb k v Hk Hw.
  destruct (decide (k ≤ d)%nat) as [Hle|Hgt]; [by eapply Hsub, Hb|].
  assert (k = S d) as -> by lia.
  inversion Hw as [|k' u' x v' Hw' Hadj]; subst.
  apply Hnb with x; [|done]. by eapply Hb.
Qed.

Lemma ball_root x : ball tmdb (person, x) 0 (root x).
Proof.
  intros k v Hk Hw. assert (k = 0)%nat as -> by lia.
  inversion Hw; subst. unfold root. cbn. set_solver.
Qed.

(** Two sides that are apart leave every walk between the roots longer than
    the two radii together. *)
Lemma balls_apart ra rb da db a b k :
  ball tmdb ra da a → ball tmdb rb db b → visited a ## visited b →
  walk tmdb k ra rb → (da + db < k)%nat.
Proof.
  intros Ha Hb Hd Hw.
  destruct (decide (da + db < k)%nat) as [|Hle]; [done|]. exfalso.
  replace k with (Nat.min k da + (k - Nat.min k da))%nat in Hw by lia.
  apply walk_split in Hw as (v & Hv1 & Hv2).
  apply (walk_sym tmdb) in Hv2; [|done].
  apply Ha in Hv1; [|lia]. apply Hb in Hv2; [|lia].
  by apply (Hd v).
Qed.

(** A closed side with an empty queue has visited all that its root
    reaches. *)
Lemma closed_reach r s k v :
  closed tmdb s → q s = [] → r ∈ visited s → walk tmdb k r v → v ∈ visited s.
Proof.
  intros Hc Hq Hr. induction 1 as [|k u x v Hw IH Hadj]; [done|].
  destruct (Hc x (IH Hr)) as [Hin|Hnb]; [|by apply Hnb].
  rewrite Hq in Hin. by apply elem_of_nil in Hin.
Qed.

Variable max_edges : Z.
Variables ra rb : Node.
Variable w0 : world.

Lemma graph_step_a d a b w res a' w1 :
  level max_edges ra rb w0 d a b w ∧ graph_level tmdb ra rb d a b w →
  q a ≠ [] ∧ q b ≠ [] ∧ Z.of_nat d ≤ max_edges →
  expand tmdb a (visited b) (logged (ERound (Z.of_nat d)) w) = (Return (res, a'), w1) →
  match res with
  | None => half_level max_edges ra rb w0 d a' b w1 ∧ graph_half_level tmdb ra rb d a' b w1
  | Some m => meeting max_edges ra rb w0 d m a' b w1 ∧ graph_meeting tmdb ra rb m a' b w1
  end.
Proof.
  intros [Hl (Hw & Hea & Heb & Hca & Hcb & Hd & Hba & Hbb)] Hg Hex.
  pose proof (level_step_a _ _ _ _ _ _ _ _ _ _ _ _ Hl Hg Hex) as Hl'.
  pose proof Hex as Hex'.
  apply expand_graph in Hex as (Hw1 & Hea' & Hres); [|done..].
  destruct res as [m|].
  - split; [done|]. split_and!; [done..|].
    intros la lb k Hla Hlb Hk.
    pose proof (balls_apart _ _ _ _ _ _ _ Hba Hbb Hd Hk) as Hlow.
    destruct Hl as (Hta & Htb & _).
    apply (expand_tree _ _ _ _ _ _ _ _ _ Hta) in Hex' as [(_ & Hta' & _) [Hma Hmb]].
    destruct (Hta' m Hma) as (la' & Hla' & Hlen_a).
    destruct Htb as (_ & Htb & _). destruct (Htb m Hmb) as (lb' & Hlb' & Hlen_b).
    rewrite (chain_det _ _ _ _ _ Hla Hla'), (chain_det _ _ _ _ _ Hlb Hlb'). lia.
  - destruct Hres as (Hca' & Hd' & Hsub & Hnb). split; [done|].
    split_and!; try done. by apply ball_step with a.
Qed.

Lemma graph_step_b d a b w res b' w1 :
  half_level max_edges ra rb w0 d a b w ∧ graph_half_level tmdb ra rb d a b w →
  expand tmdb b (visited a) w = (Return (res, b'), w1) →
  match res with
  | None => level max_edges ra rb w0 (S d) a b' w1 ∧ graph_level tmdb ra rb (S d) a b' w1
  | Some m => meeting max_edges ra rb w0 d m a b' w1 ∧ graph_meeting tmdb ra rb m a b' w1
  end.
Proof.
  intros [Hl (Hw & Hea & Heb & Hca & Hcb & Hd & Hba & Hbb)] Hex.
  pose proof (level_step_b _ _ _ _ _ _ _ _ _ _ _ _ Hl Hex) as Hl'.
  pose proof Hex as Hex'.
  apply expand_graph in Hex as (Hw1 & Heb' & Hres); [|done..].
  destruct res as [m|].
  - split; [done|]. split_and!; [done..|].
    intros la lb k Hla Hlb Hk.
    pose proof (balls_apart _ _ _ _ _ _ _ Hba Hbb Hd Hk) as Hlow.
    destruct Hl as (Hta & Htb & _).
    apply (expand_tree _ _ _ _ _ _ _ _ _ Htb) in Hex' as [(_ & Htb' & _) [Hmb Hma]].
    destruct (Htb' m Hmb) as (lb' & Hlb' & Hlen_b).
    destruct Hta as (_ & Hta & _). destruct (Hta m Hma) as (la' & Hla' & Hlen_a).
    rewrite (chain_det _ _ _ _ _ Hla Hla'), (chain_det _ _ _ _ _ Hlb Hlb'). lia.
  - destruct Hres as (Hcb' & Hd' & Hsub & Hnb). split; [done|].
    split_and!; try done. by apply ball_step with b.
Qed.

End SearchGraph.

(** ** The reconstructed path *)

Lemma reconstruct_chain_inv fuel pa pb ra rb m la lb path :
  chain pa ra m la → chain pb rb m lb →
  reconstruct fuel pa pb m = Some path → path = reverse la ++ tail lb.
Proof.
  intros Ha Hb. unfold reconstruct.
  destruct (decide (length la ≤ fuel)%nat) as [Hla|Hla].
  2:{ rewrite (climb_chain_short _ _ _ _ _ Ha) by lia. done. }
  rewrite (climb_chain _ _ _ _ _ Ha Hla). cbn.
  inversion Hb as [Hr|v p l Hv Hc]; subst.
  - rewrite Hr. cbn. rewrite climb_None. cbn. by intros [= <-].
  - rewrite Hv. cbn. destruct (decide (length l ≤ fuel)%nat) as [Hl|Hl].
    + rewrite (climb_chain _ _ _ _ _ Hc Hl). cbn. by intros [= <-].
    + rewrite (climb_chain_short _ _ _ _ _ Hc) by lia. done.
Qed.

Lemma chain_self pa r l : chain pa r r l → l = [r].
Proof.
  inversion 1 as [Hr|v p l' Hv Hc]; [done|]. subst.
  assert (∀ v l, chain pa r v l → pa !! r = Some None) as Hroot.
  { clear. induction 1; done. }
  rewrite (Hroot _ _ Hc) in Hv. done.
Qed.

Section Path.

Variable tmdb : Node → response.
Hypothesis tmdb_symmetric : symmetric tmdb.

(** The two chains of a meeting node, joined, are a path between the roots
    with one node less than the chains together. *)
Lemma chains_path pa pb ra rb m la lb :
  (∀ x p, pa !! x = Some (Some p) → adj tmdb p x) →
  (∀ x p, pb !! x = Some (Some p) → adj tmdb p x) →
  chain pa ra m la → chain pb rb m lb →
  path_between tmdb ra rb (reverse la ++ tail lb) ∧
  (edge_count (reverse la ++ tail lb) + 2 = length la + length lb)%nat.
Proof.
  intros Hpa Hpb Ha Hb.
  pose proof (chain_linked_rev tmdb _ _ _ _ Hpa Ha) as Hlink_a.
  pose proof (chain_linked tmdb _ _ _ _ tmdb_symmetric Hpb Hb) as Hlink_b.
  pose proof (chain_head _ _ _ _ Ha) as Hha.
  pose proof (chain_last _ _ _ _ Ha) as Hla.
  pose proof (chain_head _ _ _ _ Hb) as Hhb.
  pose proof (chain_last _ _ _ _ Hb) as Hlb.
  destruct la as [|x la]; [done|]. injection Hha as ->.
  destruct lb as [|y lb]; [done|]. injection Hhb as ->.
  cbn [tail]. rewrite reverse_cons in *. rewrite <- app_assoc. cbn [app].
  split; [split_and!|].
  - destruct (reverse la) as [|z l'] eqn:Hrev.
    + apply (f_equal reverse) in Hrev. rewrite reverse_involutive in Hrev.
      subst la. by injection Hla as ->.
    + cbn. rewrite <- (reverse_involutive la), Hrev in Hla.
      rewrite reverse_cons in Hla. rewrite last_cons in Hla.
      rewrite last_snoc in Hla. done.
  - rewrite last_app. by rewrite Hlb.
  - by apply linked_join.
  - unfold edge_count. rewrite length_app, length_reverse. simpl. lia.
Qed.

End Path.

(** ** Shortest paths *)

Section Shortest.

Variable tmdb : Node → response.
Hypothesis tmdb_symmetric : symmetric tmdb.

Lemma graph_level_root x y w :
  x ≠ y → coherent tmdb w →
  graph_level tmdb (person, x) (person, y) 0 (root x) (root y) w.
Proof.
  intros Hxy Hw.
  assert (∀ z, edges_ok tmdb (root z)) as He.
  { intros z v p. unfold root. cbn [parents]. by intros [_ [=]]%lookup_singleton_Some. }
  assert (∀ z, closed tmdb (root z)) as Hc.
  { intros z u. unfold root. cbn [q visited]. intros ->%elem_of_singleton. left. left. }
  split_and!; [done|apply He|apply He|apply Hc|apply Hc|
               |by apply ball_root|by apply ball_root].
  unfold root. cbn [visited]. apply disjoint_singleton_l.
  rewrite elem_of_singleton. congruence.
Qed.

(** How the search over distinct roots and coherent caches can end. *)
Lemma search_graph_ends fuel x y max_edges w r w' :
  x ≠ y → coherent tmdb w →
  bidir_bfs_people tmdb fuel x y max_edges w = (r, w') →
  ends tmdb max_edges
    (λ d a b w1, level max_edges (person, x) (person, y) w d a b w1 ∧
                 graph_level tmdb (person, x) (person, y) d a b w1)
    (λ d a b w1, half_level max_edges (person, x) (person, y) w d a b w1 ∧
                 graph_half_level tmdb (person, x) (person, y) d a b w1)
    (λ d m a b w1, meeting max_edges (person, x) (person, y) w d m a b w1 ∧
                   graph_meeting tmdb (person, x) (person, y) m a b w1)
    fuel fuel r w'.
Proof.
  intros Hxy Hw. unfold bidir_bfs_people. rewrite decide_False by done.
  intros Hrun. eapply (search_loop_ends tmdb max_edges) with (d := 0%nat) in Hrun.
  - exact Hrun.
  - intros d a b w1 res a' w2 H1 H2 H3.
    exact (graph_step_a tmdb tmdb_symmetric _ _ _ _ _ _ _ _ _ _ _ H1 H2 H3).
  - intros d a b w1 res b' w2 H1 H2.
    exact (graph_step_b tmdb tmdb_symmetric _ _ _ _ _ _ _ _ _ _ _ H1 H2).
  - split; [apply level_root | by apply graph_level_root].
Qed.

(** A meeting gives a path between the roots that no walk undercuts. *)
Lemma meeting_path max_edges ra rb w0 d m a b w rfuel path :
  meeting max_edges ra rb w0 d m a b w → graph_meeting tmdb ra rb m a b w →
  found rfuel a b m = Return (Some path) →
  path_between tmdb ra rb path ∧ ∀ k, walk tmdb k ra rb → (edge_count path ≤ k)%nat.
Proof.
  intros ((_ & Ha & _) & (_ & Hb & _) & _ & _ & Hma & Hmb) (_ & Hea & Heb & Hopt).
  destruct (Ha m Hma) as (la & Hla & _). destruct (Hb m Hmb) as (lb & Hlb & _).
  unfold found. destruct (reconstruct _ _ _ _) as [p|] eqn:Hrec; [|done].
  intros [= ->]. apply (reconstruct_chain_inv _ _ _ _ _ _ _ _ _ Hla Hlb) in Hrec as ->.
  destruct (chains_path tmdb tmdb_symmetric _ _ _ _ _ _ _ Hea Heb Hla Hlb) as [Hp Hlen].
  split; [done|]. intros k Hk. pose proof (Hopt _ _ _ Hla Hlb Hk). lia.
Qed.

End Shortest.

(** ** Independence of the cache contents *)

Section CacheIndependent.

Variable tmdb : Node → response.

Lemma ci_ret {A} (a : A) : cache_independent tmdb (ret a).
Proof. by intros w1 w2 H1 H2. Qed.

Lemma ci_out_of_fuel {A} : cache_independent tmdb (@out_of_fuel A).
Proof. by intros w1 w2 H1 H2. Qed.

Lemma ci_log e : cache_independent tmdb (log e).
Proof. by intros w1 w2 H1 H2. Qed.

Lemma ci_bind {A B} (m : M A) (k : A → M B) :
  cache_independent tmdb m → (∀ a, cache_independent tmdb (k a)) →
  cache_independent tmdb (bind m k).
Proof.
  intros Hm Hk w1 w2 H1 H2. unfold bind.
  destruct (Hm w1 w2 H1 H2) as [Heq Hc1]. destruct (Hm w2 w1 H2 H1) as [_ Hc2].
  destruct (m w1) as [r1 w1'], (m w2) as [r2 w2']. cbn [fst snd] in *. subst r2.
  destruct r1 as [|e|a]; [done..|]. by apply Hk.
Qed.

Lemma ci_fetch n : cache_independent tmdb (fetch tmdb n).
Proof.
  intros w1 w2 H1 H2.
  destruct (fetch_coherent tmdb n w1 H1) as [-> ?].
  by destruct (fetch_coherent tmdb n w2 H2) as [-> ?].
Qed.

Lemma ci_reconstruct_m fuel pa pb m : cache_independent tmdb (reconstruct_m fuel pa pb m).
Proof.
  unfold reconstruct_m. destruct (reconstruct _ _ _ _); [apply ci_ret | apply ci_out_of_fuel].
Qed.

Lemma ci_expand_loop n s other : cache_independent tmdb (expand_loop tmdb n s other).
Proof.
  revert s. induction n as [|n IH]; intros s w1 w2 H1 H2; [done|].
  rewrite !expand_loop_S. destruct (q s) as [|u rest]; [done|].
  destruct (ci_fetch u (logged (EDequeue u) w1) (logged (EDequeue u) w2)) as [Heq Hc1];
    [done..|].
  destruct (ci_fetch u (logged (EDequeue u) w2) (logged (EDequeue u) w1)) as [_ Hc2];
    [done..|].
  destruct (fetch tmdb u (logged (EDequeue u) w1)) as [r1 w1'].
  destruct (fetch tmdb u (logged (EDequeue u) w2)) as [r2 w2'].
  cbn [fst snd] in *. subst r2. destruct r1 as [|e|ids]; [done..|].
  destruct (scan _ ids u other _) as [[m|] s1]; [done|]. by apply IH.
Qed.

Lemma ci_search_loop fuel rfuel max_edges depth a b :
  cache_independent tmdb (search_loop tmdb fuel rfuel max_edges depth a b).
Proof.
  revert depth a b. induction fuel as [|fuel IH]; intros depth a b; simpl.
  - case_decide; [apply ci_out_of_fuel | apply ci_ret].
  - case_decide; [|apply ci_ret].
    apply ci_bind; [apply ci_log|]. intros _.
    apply ci_bind; [apply ci_expand_loop|]. intros [[m|] a'].
    + apply ci_reconstruct_m.
    + apply ci_bind; [apply ci_expand_loop|]. intros [[m|] b'].
      * apply ci_reconstruct_m.
      * apply IH.
Qed.

Lemma ci_bidir_bfs_people fuel source_id target_id max_edges :
  cache_independent tmdb (bidir_bfs_people tmdb fuel source_id target_id max_edges).
Proof.
  unfold bidir_bfs_people. case_decide; [apply ci_ret | apply ci_search_loop].
Qed.

End CacheIndependent.

(** ** Providers given by a table of credits *)

Lemma tmdb_of_resolves_all credits : resolves_all (tmdb_of credits).
Proof. intros [[] i]; unfold tmdb_of; cbn; eauto. Qed.

Lemma coherent_cold tmdb : coherent tmdb cold.
Proof. split; intros k v Hin; by apply elem_of_nil in Hin. Qed.

(** ** Capacity and eviction *)

Lemma lru_remove_keys k c : (lru_remove k c).*1 = filter (λ k', k' ≠ k) c.*1.
Proof.
  unfold lru_remove. induction c as [|[k1 v1] c IH]; [done|].
  rewrite fmap_cons, !filter_cons. cbn [fst].
  destruct (decide (k1 ≠ k)); [rewrite fmap_cons; by f_equal | done].
Qed.

Lemma lru_wf_touch k v c : lru_wf c → (k, v) ∈ c → lru_wf ((k, v) :: lru_remove k c).
Proof.
  intros [Hnd Hlen] Hin. split.
  - rewrite fmap_cons, lru_remove_keys. cbn [fst]. apply NoDup_cons. split.
    + rewrite list_elem_of_filter. tauto.
    + by apply NoDup_filter.
  - assert (length (lru_remove k c) < length c)%nat; [|simpl; lia].
    unfold lru_remove. apply length_filter_lt with (k, v); [done|]. simpl. tauto.
Qed.

Lemma lru_store_not_full k v c :
  Z.of_nat (length c) < maxsize → lru_store k v c = (k, v) :: c.
Proof. intros H. unfold lru_store. by rewrite decide_False by lia. Qed.

Lemma lru_store_full k v c x :
  maxsize ≤ Z.of_nat (length (c ++ [x])) → lru_store k v (c ++ [x]) = (k, v) :: c.
Proof.
  intros H. unfold lru_store. rewrite decide_True by done. by rewrite removelast_snoc.
Qed.

Lemma lru_wf_store k v c : lru_wf c → k ∉ c.*1 → lru_wf (lru_store k v c).
Proof.
  intros [Hnd Hlen] Hk.
  destruct (decide (maxsize ≤ Z.of_nat (length c))) as [Hfull|Hroom].
  - induction c as [|x c _] using rev_ind; [unfold maxsize in *; simpl in *; lia|].
    rewrite lru_store_full by done.
    rewrite fmap_app in Hnd, Hk. apply NoDup_app in Hnd as (Hnd & _ & _).
    rewrite length_app in Hlen. simpl in Hlen. split.
    + rewrite fmap_cons. apply NoDup_cons. split; [|done].
      intros Hin. apply Hk, elem_of_app. by left.
    + simpl. lia.
  - rewrite lru_store_not_full by lia. split.
    + rewrite fmap_cons. by apply NoDup_cons.
    + simpl. lia.
Qed.

Lemma lru_find_app_None k c1 c2 :
  k ∉ c1.*1 → lru_find k (c1 ++ c2) = lru_find k c2.
Proof.
  induction c1 as [|[k1 v1] c1 IH]; [done|].
  rewrite fmap_cons, not_elem_of_cons. cbn [fst]. intros [Hne Hk].
  simpl. rewrite decide_False by done. by apply IH.
Qed.

Lemma lru_find_app_l k c1 c2 v :
  lru_find k c1 = Some v → lru_find k (c1 ++ c2) = Some v.
Proof.
  induction c1 as [|[k1 v1] c1 IH]; [done|]. simpl. case_decide; [done | apply IH].
Qed.

Section Capacity.

Variable tmdb : Node → response.

(** What one cached call does to the two caches. *)
Lemma fetch_caches t k w :
  lru_wf (cache_of t w) →
  lru_wf (cache_of t (fetch tmdb (t, k) w).2) ∧
  cache_of (other_type t) (fetch tmdb (t, k) w).2 = cache_of (other_type t) w ∧
  (∀ v, (fetch tmdb (t, k) w).1 = Return v →
        head (cache_of t (fetch tmdb (t, k) w).2) = Some (k, v)).
Proof.
  intros Hwf. destruct (lru_find k (cache_of t w)) as [v|] eqn:Hf.
  - rewrite (fetch_hit _ _ _ _ _ Hf). cbn [fst snd].
    rewrite cache_of_set, cache_of_set_other. split_and!; [|done|by intros ? [= <-]].
    apply lru_wf_touch; [done | by apply lru_find_Some].
  - destruct (tmdb (t, k)) as [e|cast] eqn:Ht.
    + rewrite (fetch_fail _ _ _ _ _ Hf Ht). cbn [fst snd].
      split_and!; [by destruct t | by destruct t | done].
    + rewrite (fetch_miss _ _ _ _ _ Hf Ht). cbn [fst snd].
      rewrite cache_of_set, cache_of_set_other.
      split_and!; [|by destruct t|by intros ? [= <-]].
      apply lru_wf_store; [by destruct t|]. apply lru_find_None.
      by destruct t.
Qed.

(** A missed key that the provider resolves, on a full cache, takes the
    place of the oldest entry. *)
Lemma fetch_evicts t k w c0 kl vl v :
  cache_of t w = c0 ++ [(kl, vl)] →
  Z.of_nat (length (cache_of t w)) = maxsize →
  lru_find k (cache_of t w) = None →
  (fetch tmdb (t, k) w).1 = Return v →
  cache_of t (fetch tmdb (t, k) w).2 = (k, v) :: c0.
Proof.
  intros Hc Hlen Hf. destruct (tmdb (t, k)) as [e|cast] eqn:Ht.
  - by rewrite (fetch_fail _ _ _ _ _ Hf Ht).
  - rewrite (fetch_miss _ _ _ _ _ Hf Ht). cbn [fst snd]. intros [= <-].
    rewrite cache_of_set.
    replace (cache_of t (logged (EFetch (t, k)) w)) with (cache_of t w) by (by destruct t).
    rewrite Hc. apply lru_store_full. rewrite <- Hc. lia.
Qed.

(** The world after a cached call that the provider can answer. *)
Lemma fetch_hit_or_miss t k w cast :
  tmdb (t, k) = Cast cast →
  (fetch tmdb (t, k) w).2 =
  set_cache t
    (match lru_find k (cache_of t w) with
     | Some v => (k, v) :: lru_remove k (cache_of t w)
     | None => lru_store k (sorted_ids cast) (cache_of t (logged (EFetch (t, k)) w))
     end)
    (match lru_find k (cache_of t w) with
     | Some _ => w
     | None => logged (EFetch (t, k)) w
     end).
Proof.
  intros Ht. destruct (lru_find k (cache_of t w)) as [v|] eqn:Hf.
  - by rewrite (fetch_hit _ _ _ _ _ Hf).
  - rewrite (fetch_miss _ _ _ _ _ Hf Ht). cbn [snd]. by rewrite cache_of_logged.
Qed.

(** Keys that the caches do not hold, asked for one after the other while
    there is room, pile up in front of the cache of their type. *)
Lemma lookups_fresh t ids w :
  NoDup ids → (∀ i, i ∈ ids → i ∉ (cache_of t w).*1) →
  (∀ i, i ∈ ids → ∃ cast, tmdb (t, i) = Cast cast) →
  Z.of_nat (length ids + length (cache_of t w)) ≤ maxsize →
  (cache_of t (lookups tmdb ((λ i, (t, i)) <$> ids) w)).*1
    = reverse ids ++ (cache_of t w).*1 ∧
  cache_of (other_type t) (lookups tmdb ((λ i, (t, i)) <$> ids) w)
    = cache_of (other_type t) w.
Proof.
  revert w. induction ids as [|i ids IH]; intros w Hnd Hfresh Hres Hlen; [done|].
  apply NoDup_cons in Hnd as [Hi Hnd].
  rewrite fmap_cons. unfold lookups. cbn [foldl]. fold (lookups tmdb).
  destruct (Hres i) as [cast Ht]; [left|].
  assert (lru_find i (cache_of t w) = None) as Hf.
  { apply lru_find_None, Hfresh. left. }
  rewrite (fetch_miss _ _ _ _ _ Hf Ht). cbn [snd].
  set (w1 := set_cache t _ _).
  assert (cache_of t w1 = (i, sorted_ids cast) :: cache_of t w) as Hc1.
  { unfold w1. rewrite cache_of_set.
    replace (cache_of t (logged (EFetch (t, i)) w)) with (cache_of t w) by (by destruct t).
    apply lru_store_not_full. simpl in Hlen. lia. }
  assert (cache_of (other_type t) w1 = cache_of (other_type t) w) as Hc2.
  { unfold w1. rewrite cache_of_set_other. by destruct t. }
  destruct (IH w1) as [Hk Ho]; [done| | |..].
  - intros j Hj. rewrite Hc1, fmap_cons, not_elem_of_cons. split.
    + intros ->. done.
    + apply Hfresh. by right.
  - intros j Hj. apply Hres. by right.
  - rewrite Hc1. simpl in *. lia.
  - unfold lookups in Hk, Ho. rewrite Hk, Ho, Hc1, Hc2. split; [|done].
    rewrite reverse_cons, <- app_assoc. done.
Qed.

End Capacity.

Lemma people_cached_keys :
  (cache_of person people_cached).*1 = reverse (seqZ 1 maxsize) ∧
  cache_of movie people_cached = [].
Proof.
  unfold people_cached.
  destruct (lookups_fresh nobody person (seqZ 1 maxsize) cold) as [Hk Ho].
  - apply NoDup_seqZ.
  - intros i _. apply not_elem_of_nil.
  - intros i _. apply tmdb_of_resolves_all.
  - rewrite length_seqZ. change (length (cache_of person cold)) with 0%nat.
    rewrite Nat.add_0_r, Z2Nat.id; [reflexivity | by unfold maxsize].
  - change (other_type person) with movie in Ho. rewrite Hk, Ho. split.
    + apply app_nil_r.
    + reflexivity.
Qed.

Lemma people_cached_lookups :
  people_cached = lookups nobody ((λ i, (person, i)) <$> seqZ 1 maxsize) cold.
Proof. unfold people_cached. reflexivity. Qed.

(** The cache of the people after [people_cached] is full; person 1 is its
    least recently used key. *)
Lemma people_cached_full :
  Z.of_nat (length (cache_of person people_cached)) = maxsize ∧
  last (cache_of person people_cached).*1 = Some 1 ∧
  10001 ∉ (cache_of person people_cached).*1 ∧
  lru_find 1 (cache_of person people_cached) ≠ None.
Proof.
  destruct people_cached_keys as [Hp _]. split_and!.
  - rewrite <- (length_fmap fst), Hp, length_reverse, length_seqZ.
    rewrite Z2Nat.id; [reflexivity | by unfold maxsize].
  - rewrite Hp, last_reverse. rewrite seqZ_cons by (by unfold maxsize). reflexivity.
  - rewrite Hp. rewrite elem_of_reverse, elem_of_seqZ. unfold maxsize. clear. lia.
  - rewrite lru_find_None. rewrite Hp. rewrite elem_of_reverse, elem_of_seqZ.
    unfold maxsize. clear. lia.
Qed.

Lemma adj_tmdb_of credits u v :
  adj (tmdb_of credits) u v ↔
  (u.1 = person ∧ v.1 = movie ∧ (u.2, v.2) ∈ credits) ∨
  (u.1 = movie ∧ v.1 = person ∧ (v.2, u.2) ∈ credits).
Proof.
  rewrite adj_resolve. unfold resolve, tmdb_of.
  destruct u as [[] i], v as [tv j]; cbn [fst snd other_type]; split.
  - intros (ids & [= <-] & -> & Hin). left. split_and!; [done..|].
    apply elem_of_sorted_ids, list_elem_of_fmap in Hin as ([p m] & -> & Hc).
    apply list_elem_of_filter in Hc as [Hp Hc]. simpl in *. by subst.
  - intros [(_ & -> & Hc)|([=] & _)]. eexists. split_and!; [done..|].
    apply elem_of_sorted_ids, list_elem_of_fmap. exists (i, j). split; [done|].
    by apply list_elem_of_filter.
  - intros (ids & [= <-] & -> & Hin). right. split_and!; [done..|].
    apply elem_of_sorted_ids, list_elem_of_fmap in Hin as ([p m] & -> & Hc).
    apply list_elem_of_filter in Hc as [Hp Hc]. simpl in *. by subst.
  - intros [([=] & _)|(_ & -> & Hc)]. eexists. split_and!; [done..|].
    apply elem_of_sorted_ids, list_elem_of_fmap. exists (j, i). split; [done|].
    by apply list_elem_of_filter.
Qed.

Lemma tmdb_of_symmetric credits : symmetric (tmdb_of credits).
Proof. intros u v. rewrite !adj_tmdb_of. tauto. Qed.

(** ** The history of a cache *)

Lemma remove_dups_snoc (l : list Z) k :
  remove_dups (l ++ [k]) = filter (λ x, x ≠ k) (remove_dups l) ++ [k].
Proof.
  induction l as [|x l IH]; [done|].
  cbn [app remove_dups].
  destruct (decide_rel elem_of x (l ++ [k])) as [Hin|Hin];
    destruct (decide_rel elem_of x l) as [Hin'|Hin'].
  - done.
  - apply elem_of_app in Hin as [?|Hx%list_elem_of_singleton]; [done|]. subst x.
    rewrite filter_cons, decide_False by (by intros H; apply H). done.
  - exfalso. apply Hin, elem_of_app. by left.
  - rewrite filter_cons, decide_True.
    + cbn. by f_equal.
    + intros ->. apply Hin, elem_of_app. right. left.
Qed.

Lemma recent_snoc ks k : recent (ks ++ [k]) = k :: filter (λ x, x ≠ k) (recent ks).
Proof.
  unfold recent. rewrite remove_dups_snoc, reverse_app, filter_reverse. done.
Qed.

Lemma recent_NoDup ks : NoDup (recent ks).
Proof. unfold recent. rewrite reverse_Permutation. apply NoDup_remove_dups. Qed.

Lemma filter_absent (k : Z) (l : list Z) : k ∉ l → filter (λ x, x ≠ k) l = l.
Proof.
  induction l as [|x l IH]; [done|]. rewrite not_elem_of_cons. intros [Hne Hk].
  rewrite filter_cons, decide_True by done. f_equal. by apply IH.
Qed.

(** Moving a key of the first [M] to the front. *)
Lemma take_touch (M : nat) (D : list Z) k :
  NoDup D → k ∈ take M D →
  k :: filter (λ x, x ≠ k) (take M D) = take M (k :: filter (λ x, x ≠ k) D).
Proof.
  intros Hnd Hin.
  destruct M as [|M]; [by apply elem_of_nil in Hin|].
  rewrite firstn_cons. f_equal.
  apply list_elem_of_split in Hin as (D1 & T2 & HT).
  assert (D = D1 ++ k :: (T2 ++ drop (S M) D)) as HD.
  { rewrite <- (take_drop (S M) D) at 1. rewrite HT, <- app_assoc. done. }
  assert (NoDup (D1 ++ k :: (T2 ++ drop (S M) D))) as Hnd' by (by rewrite <- HD).
  apply NoDup_app in Hnd' as (_ & Hk1 & Hnd2).
  apply NoDup_cons in Hnd2 as [Hk2 _].
  rewrite not_elem_of_app in Hk2. destruct Hk2 as [Hk2 Hk3].
  assert (k ∉ D1) as Hk1' by (intros H; apply (Hk1 k H); left).
  assert (∀ T, k ∉ T → filter (λ x, x ≠ k) (D1 ++ k :: T) = D1 ++ T) as Hfil.
  { intros T HkT. rewrite filter_app, filter_cons.
    rewrite decide_False by (by intros H; apply H).
    by rewrite !filter_absent. }
  rewrite HT, Hfil by done.
  rewrite HD, Hfil by (by apply not_elem_of_app).
  assert (length (take (S M) D) ≤ S M)%nat as Hlen by (rewrite length_take; lia).
  rewrite HT, length_app in Hlen. simpl in Hlen.
  destruct (decide (length D ≤ S M)%nat) as [Hshort|Hlong].
  - rewrite (drop_ge D) by done. rewrite app_nil_r.
    rewrite take_ge; [done|]. rewrite length_app. lia.
  - assert (length (take (S M) D) = S M) as HlenT by (rewrite length_take; lia).
    rewrite HT, length_app in HlenT. simpl in HlenT.
    rewrite app_assoc. rewrite take_app_length'; [done|]. rewrite length_app. lia.
Qed.

(** Putting a key that is not among the first [M] in front of them. *)
Lemma take_store (M : nat) (D : list Z) k :
  (0 < M)%nat → k ∉ take M D →
  k :: (if decide (M ≤ length (take M D))%nat then removelast (take M D) else take M D)
    = take M (k :: filter (λ x, x ≠ k) D).
Proof.
  intros HM Hk. destruct M as [|M]; [lia|]. rewrite firstn_cons. f_equal.
  destruct (decide (S M ≤ length D)%nat) as [Hlong|Hshort].
  - rewrite decide_True by (rewrite length_take; lia).
    rewrite removelast_firstn by lia.
    rewrite <- (take_drop (S M) D) at 2. rewrite filter_app, filter_absent by done.
    rewrite take_app_le by (rewrite length_take; lia).
    rewrite take_take. f_equal. lia.
  - rewrite decide_False by (rewrite length_take; lia).
    rewrite take_ge in Hk |- * by lia. rewrite filter_absent by done.
    rewrite take_ge; [done | lia].
Qed.

Lemma recent_example : recent [1; 2; 3; 1; 3] = [3; 1; 2].
Proof. reflexivity. Qed.

Lemma fmap_removelast {A B} (f : A → B) (l : list A) :
  f <$> removelast l = removelast (f <$> l).
Proof.
  induction l as [|a l IH]; [done|]. destruct l as [|b l]; [done|].
  change (removelast (a :: b :: l)) with (a :: removelast (b :: l)).
  rewrite !fmap_cons. rewrite IH. done.
Qed.

Section History.

Variable tmdb : Node → response.

Lemma lookups_snoc ns n w :
  lookups tmdb (ns ++ [n]) w = (fetch tmdb n (lookups tmdb ns w)).2.
Proof. unfold lookups. by rewrite foldl_snoc. Qed.

Lemma lookups_coherent ns w : coherent tmdb w → coherent tmdb (lookups tmdb ns w).
Proof.
  intros Hw. induction ns as [|n ns IH] using rev_ind; [done|].
  rewrite lookups_snoc. by apply fetch_coherent.
Qed.

Lemma fetch_other t t' k w :
  t ≠ t' → cache_of t (fetch tmdb (t', k) w).2 = cache_of t w.
Proof.
  intros Hne. destruct (lru_find k (cache_of t' w)) as [v|] eqn:Hf.
  - rewrite (fetch_hit _ _ _ _ _ Hf). cbn [snd]. by rewrite cache_of_set_ne.
  - destruct (tmdb (t', k)) as [e|cast] eqn:Hr.
    + rewrite (fetch_fail _ _ _ _ _ Hf Hr). cbn [snd]. by rewrite cache_of_logged.
    + rewrite (fetch_miss _ _ _ _ _ Hf Hr). cbn [snd].
      rewrite cache_of_set_ne by done. by rewrite cache_of_logged.
Qed.

Lemma lookups_wf ns t : lru_wf (cache_of t (lookups tmdb ns cold)).
Proof.
  revert t. induction ns as [|[t' k] ns IH] using rev_ind; intros t.
  - destruct t; (split; [constructor | by unfold maxsize]).
  - rewrite lookups_snoc.
    destruct (decide (t = t')) as [->|Hne].
    + by apply fetch_caches.
    + by rewrite fetch_other.
Qed.

Lemma answered_snoc t ns n :
  answered tmdb t (ns ++ [n]) =
  answered tmdb t ns ++
    (if decide (n.1 = t)
     then match tmdb n with Cast _ => [n.2] | Failed _ => [] end
     else []).
Proof.
  unfold answered. rewrite omap_app. f_equal. cbn.
  destruct (decide (n.1 = t)); [|done]. by destruct (tmdb n).
Qed.

(** After any sequence of cached calls on caches that were empty, the keys
    of a cache are the most recently answered keys of its type, the most
    recent one first, as many as the cache can hold. *)
Lemma lookups_keys ns t :
  (cache_of t (lookups tmdb ns cold)).*1
    = take (Z.to_nat maxsize) (recent (answered tmdb t ns)).
Proof.
  remember (Z.to_nat maxsize) as M eqn:HM.
  assert (Z.of_nat M = maxsize ∧ (0 < M)%nat) as [HM1 HM2]
    by (subst M; unfold maxsize; lia).
  clear HM.
  induction ns as [|[t' k] ns IH] using rev_ind.
  - unfold recent, answered, lookups. cbn. rewrite take_nil. by destruct t.
  - rewrite lookups_snoc, answered_snoc. cbn [fst snd].
    pose proof (lookups_coherent ns cold (coherent_cold tmdb)) as Hcoh.
    set (w := lookups tmdb ns cold) in *.
    destruct (decide (t' = t)) as [->|Hne].
    2:{ rewrite fetch_other by done. by rewrite app_nil_r. }
    destruct (lru_find k (cache_of t w)) as [v|] eqn:Hf.
    + rewrite (fetch_hit _ _ _ _ _ Hf). cbn [snd]. rewrite cache_of_set.
      apply lru_find_Some in Hf as Hin.
      destruct (proj1 (coherent_cache_of tmdb w) Hcoh t _ _ Hin) as (cast & -> & _).
      rewrite recent_snoc, fmap_cons, lru_remove_keys. cbn [fst]. rewrite IH.
      apply take_touch; [apply recent_NoDup|].
      rewrite <- IH. apply list_elem_of_fmap. by exists (k, v).
    + destruct (tmdb (t, k)) as [e|cast] eqn:Ht.
      * rewrite (fetch_fail _ _ _ _ _ Hf Ht). cbn [snd].
        by rewrite cache_of_logged, app_nil_r.
      * rewrite (fetch_miss _ _ _ _ _ Hf Ht). cbn [snd]. rewrite cache_of_set.
        rewrite recent_snoc. unfold lru_store. rewrite fmap_cons. cbn [fst].
        apply lru_find_None in Hf. rewrite IH in Hf.
        rewrite <- (take_store M _ k HM2 Hf). f_equal.
        rewrite <- IH, length_fmap.
        destruct (decide (maxsize ≤ Z.of_nat (length (cache_of t w))));
          destruct (decide (M ≤ length (cache_of t w))%nat); try lia.
        -- apply fmap_removelast.
        -- done.
Qed.

End History.

Lemma other_type_ne t : other_type t ≠ t.
Proof. by destruct t. Qed.

(** ** Parent pointers on any provider *)

Lemma other_type_involutive t : other_type (other_type t) = t.
Proof. by destruct t. Qed.

Lemma alternates_join l1 m l2 :
  alternates (l1 ++ [m]) → alternates (m :: l2) → alternates (l1 ++ m :: l2).
Proof.
  intros H1 H2. induction l1 as [|x l1 IH]; [done|].
  destruct l1 as [|y l1].
  - destruct H1 as [Hxm _]. by split.
  - destruct H1 as [Hxy H1]. split; [done|]. by apply IH.
Qed.

Lemma alternates_reverse l : alternates l → alternates (reverse l).
Proof.
  induction l as [|u l IH]; [done|]. destruct l as [|v l]; [done|].
  intros [Huv Hl]. rewrite reverse_cons. specialize (IH Hl).
  rewrite reverse_cons in IH |- *. rewrite <- app_assoc.
  apply alternates_join; [done|]. split; [|done].
  rewrite Huv. by rewrite other_type_involutive.
Qed.

Section Edges.

Variable tmdb : Node → response.

(** On coherent caches [expand] keeps the parent pointers edges of the
    graph, whatever the other side has visited. *)
Lemma expand_edges s other w res s' w' :
  coherent tmdb w → edges_ok tmdb s →
  expand tmdb s other w = (Return (res, s'), w') →
  coherent tmdb w' ∧ edges_ok tmdb s'.
Proof.
  intros Hw He Hex. unfold expand in Hex.
  pose (I := λ (_ : nat) (s1 : side) (w1 : world), coherent tmdb w1 ∧ edges_ok tmdb s1).
  pose (Q := λ (_ : Node) (s1 : side) (w1 : world), coherent tmdb w1 ∧ edges_ok tmdb s1).
  assert (match res with None => I 0%nat s' w' | Some m => Q m s' w' end) as Hres.
  { eapply (expand_loop_rule tmdb other I Q); [|..|exact Hex].
    - clear. intros n s1 w1 u rest ids w2 res s2 (Hw & He) Hq Hf Hs.
      apply fetch_resolve in Hf as [Hr Hw2]; [|done].
      apply scan_scanned in Hs as (new & Hq2 & Hvis2 & Hpa2 & Hnd & Hnew & Hres).
      cbn [q parents visited] in *.
      assert (edges_ok tmdb s2) as He2.
      { intros v p. rewrite Hpa2. case_decide as Hin; [|apply He].
        intros [= <-]. destruct (Hnew _ Hin) as (_ & i & Hi & ->).
        apply adj_resolve. eauto. }
      by destruct res.
    - done. }
  by destruct res.
Qed.

(** The two chains of a meeting node, joined, lead from one root to the
    other. *)
Lemma chains_ends pa pb ra rb m la lb :
  chain pa ra m la → chain pb rb m lb →
  head (reverse la ++ tail lb) = Some ra ∧ last (reverse la ++ tail lb) = Some rb ∧
  ∃ l1 l2, la = m :: l1 ∧ lb = m :: l2 ∧ reverse la ++ tail lb = reverse l1 ++ m :: l2.
Proof.
  intros Ha Hb.
  pose proof (chain_head _ _ _ _ Ha) as Hha.
  pose proof (chain_last _ _ _ _ Ha) as Hla.
  pose proof (chain_head _ _ _ _ Hb) as Hhb.
  pose proof (chain_last _ _ _ _ Hb) as Hlb.
  destruct la as [|x la]; [done|]. injection Hha as ->.
  destruct lb as [|y lb]; [done|]. injection Hhb as ->.
  cbn [tail]. rewrite reverse_cons. rewrite <- app_assoc. cbn [app].
  split_and!.
  - destruct (reverse la) as [|z l'] eqn:Hrev.
    + apply (f_equal reverse) in Hrev. rewrite reverse_involutive in Hrev.
      subst la. by injection Hla as ->.
    + cbn. rewrite <- (reverse_involutive la), Hrev in Hla.
      rewrite reverse_cons in Hla. rewrite last_cons in Hla.
      rewrite last_snoc in Hla. done.
  - rewrite last_app. by rewrite Hlb.
  - by exists la, lb.
Qed.

(** How the search over distinct roots and coherent caches can end, for
    any provider. *)
Lemma search_edges_ends fuel x y max_edges w r w' :
  x ≠ y → coherent tmdb w →
  bidir_bfs_people tmdb fuel x y max_edges w = (r, w') →
  ends tmdb max_edges
    (λ d a b w1, level max_edges (person, x) (person, y) w d a b w1 ∧
                 coherent tmdb w1 ∧ edges_ok tmdb a ∧ edges_ok tmdb b)
    (λ d a b w1, half_level max_edges (person, x) (person, y) w d a b w1 ∧
                 coherent tmdb w1 ∧ edges_ok tmdb a ∧ edges_ok tmdb b)
    (λ d m a b w1, meeting max_edges (person, x) (person, y) w d m a b w1 ∧
                   edges_ok tmdb a ∧ edges_ok tmdb b)
    fuel fuel r w'.
Proof.
  intros Hxy Hw. unfold bidir_bfs_people. rewrite decide_False by done.
  intros Hrun. eapply (search_loop_ends tmdb max_edges) with (d := 0%nat) in Hrun.
  - exact Hrun.
  - intros d a b w1 res a' w2 [Hl (Hw1 & Hea & Heb)] Hg Hex.
    pose proof (level_step_a _ _ _ _ _ _ _ _ _ _ _ _ Hl Hg Hex) as Hl'.
    apply expand_edges in Hex as [Hw2 Hea']; [|done..].
    destruct res; by split_and!.
  - intros d a b w1 res b' w2 [Hl (Hw1 & Hea & Heb)] Hex.
    pose proof (level_step_b _ _ _ _ _ _ _ _ _ _ _ _ Hl Hex) as Hl'.
    apply expand_edges in Hex as [Hw2 Heb']; [|done..].
    destruct res; by split_and!.
  - assert (∀ z, edges_ok tmdb (root z)) as He.
    { intros z v p. unfold root. cbn [parents]. by intros [_ [=]]%lookup_singleton_Some. }
    split_and!; [apply level_root|done|apply He..].
Qed.

End Edges.

(** ** Providers that list every credit on both of its ends *)

Section Listed.

Variable tmdb : Node → response.
Hypothesis tmdb_symmetric : symmetric tmdb.

Lemma adj_resolves u v : adj tmdb u v → ∃ cast, tmdb u = Cast cast.
Proof.
  unfold adj, neighbours. destruct (tmdb u) as [e|cast]; [by intros ?%elem_of_nil|eauto].
Qed.

(** When the provider resolves the nodes that are dequeued, [expand]
    returns. *)
Lemma expand_loop_returns_queue n s other w :
  coherent tmdb w → (n ≤ length (q s))%nat →
  (∀ u, u ∈ take n (q s) → ∃ cast, tmdb u = Cast cast) →
  ∃ res s' w', expand_loop tmdb n s other w = (Return (res, s'), w').
Proof.
  revert s w. induction n as [|n IH]; intros s w Hw Hn Hq'; [by eexists _, _, _|].
  rewrite expand_loop_S. destruct (q s) as [|u rest] eqn:Hq; [simpl in Hn; lia|].
  destruct (fetch_coherent tmdb u (logged (EDequeue u) w)) as [Hr Hc]; [done|].
  destruct (fetch tmdb u (logged (EDequeue u) w)) as [r w1]. cbn [fst snd] in *.
  subst r. unfold resolve. destruct (Hq' u) as [cast ->]; [left|].
  destruct (scan _ _ u other _) as [[m|] s1] eqn:Hs; [by eexists _, _, _|].
  apply scan_scanned in Hs as (new & Hq1 & _). cbn [q] in Hq1. simpl in Hn.
  apply IH; [done| |].
  - rewrite Hq1, length_app. lia.
  - intros v Hv. apply Hq'. rewrite firstn_cons. right.
    rewrite Hq1 in Hv. by rewrite take_app_le in Hv by lia.
Qed.

(** With every credit listed on both of its ends, the provider resolves
    whatever a side has queued, if it resolves the root. *)
Lemma queue_resolves r D s u :
  tree r D s → edges_ok tmdb s → (∃ cast, tmdb r = Cast cast) →
  u ∈ q s → ∃ cast, tmdb u = Cast cast.
Proof.
  intros (_ & Hch & Hq) He Hr Hu.
  destruct (Hch u (Hq u Hu)) as (l & Hl & _).
  inversion Hl as [|v p l' Hv Hc]; subst; [done|].
  apply (adj_resolves u p), tmdb_symmetric. by apply He.
Qed.

Lemma expand_returns r D s other w :
  coherent tmdb w → tree r D s → edges_ok tmdb s → (∃ cast, tmdb r = Cast cast) →
  ∃ res s' w', expand tmdb s other w = (Return (res, s'), w').
Proof.
  intros Hw Ht He Hr. apply expand_loop_returns_queue; [done..|].
  intros u Hu%elem_of_take. destruct Hu as (i & Hu & _).
  apply (queue_resolves r D s); [done..|]. by eapply list_elem_of_lookup_2.
Qed.

(** The ends of a walk of at least one edge are resolved. *)
Lemma walk_resolves k x y :
  walk tmdb (S k) x y → (∃ cast, tmdb x = Cast cast) ∧ (∃ cast, tmdb y = Cast cast).
Proof.
  intros Hw. split.
  - apply (walk_sym tmdb) in Hw; [|done].
    inversion Hw as [|k' u v w' _ Hadj]; subst.
    by apply (adj_resolves x v), tmdb_symmetric.
  - inversion Hw as [|k' u v w' _ Hadj]; subst.
    by apply (adj_resolves y v), tmdb_symmetric.
Qed.

Lemma search_shortest_listed fuel x y max_edges w p0 :
  coherent tmdb w →
  path_between tmdb (person, x) (person, y) p0 →
  Z.of_nat (edge_count p0) ≤ max_edges →
  max_edges + 2 ≤ Z.of_nat fuel →
  ∃ path,
    (bidir_bfs_people tmdb fuel x y max_edges w).1 = Return (Some path) ∧
    path_between tmdb (person, x) (person, y) path ∧
    ∀ p, path_between tmdb (person, x) (person, y) p →
         (edge_count path ≤ edge_count p)%nat.
Proof.
  intros Hw Hp0 Hk0 Hfuel.
  destruct (decide (x = y)) as [->|Hne].
  { exists [(person, y)]. unfold bidir_bfs_people. rewrite decide_True by done.
    split_and!; [done|done|]. intros p _. unfold edge_count. simpl. lia. }
  apply path_walk in Hp0 as Hw0.
  assert ((∃ cast, tmdb (person, x) = Cast cast) ∧ (∃ cast, tmdb (person, y) = Cast cast))
    as [Hrx Hry].
  { destruct (edge_count p0) as [|k]; [|by eapply walk_resolves].
    inversion Hw0; congruence. }
  destruct (bidir_bfs_people _ _ _ _ _ _) as [r w'] eqn:Hb. cbn [fst].
  apply search_graph_ends in Hb; [|done..].
  inversion Hb as [d a b w1 [Hl Hg] Hguard|d m a b w1 [Hm Hg] Hf
                  |d a b w1 e w2 [Hl Hg] Hguard Hex|d a b w1 e w2 [Hl Hg] Hex
                  |a b w1 [Hl Hg] Hguard]; subst.
  - exfalso. apply Hguard.
    destruct Hg as (_ & _ & _ & Hca & Hcb & Hd & Hba & Hbb).
    assert ((person, x) ∈ visited a) as Hra by (apply (Hba 0%nat); [lia | apply walk_O]).
    assert ((person, y) ∈ visited b) as Hrb by (apply (Hbb 0%nat); [lia | apply walk_O]).
    split_and!.
    + intros Hq. apply (Hd (person, y)); [|done].
      by eapply closed_reach.
    + intros Hq. apply (Hd (person, x)); [done|].
      eapply closed_reach; [done..|]. by apply walk_sym.
    + pose proof (balls_apart tmdb tmdb_symmetric _ _ _ _ _ _ _ Hba Hbb Hd Hw0). lia.
  - destruct (meeting_found _ _ _ _ _ _ _ _ _ fuel Hm) as (la & lb & _ & _ & _ & _ & Hfound).
    { destruct Hm as (_ & _ & _ & Hd & _). lia. }
    rewrite Hfound. eexists. split; [done|].
    destruct (meeting_path tmdb tmdb_symmetric _ _ _ _ _ _ _ _ _ _ _ Hm Hg Hfound) as [Hp Hopt].
    split; [done|]. intros p Hp'. by apply Hopt, path_walk.
  - exfalso. destruct Hg as (Hw1 & Hea & _). destruct Hl as (Hta & _).
    destruct (expand_returns (person, x) (S d) a (visited b)
                (logged (ERound (Z.of_nat d)) w1)) as (res & s' & w3 & Hret); [done..|].
    congruence.
  - exfalso. destruct Hg as (Hw1 & _ & Heb & _). destruct Hl as (_ & Htb & _).
    destruct (expand_returns (person, y) (S d) b (visited a) w1)
      as (res & s' & w3 & Hret); [done..|].
    congruence.
  - exfalso. lia.
Qed.

End Listed.

Lemma unresolved_symmetric bad e tmdb :
  symmetric tmdb → neighbours tmdb bad = [] → symmetric (unresolved bad e tmdb).
Proof.
  intros Hsym Hbad.
  assert (∀ u v, adj (unresolved bad e tmdb) u v ↔ adj tmdb u v) as Hadj.
  { intros u v. unfold adj, neighbours, unresolved.
    destruct (decide (u = bad)) as [->|Hu]; [|done].
    fold (neighbours tmdb bad). rewrite Hbad. done. }
  intros u v. rewrite !Hadj. apply Hsym.
Qed.

(** ** Neighbours that the other side has visited *)

Section Meets.

Variable tmdb : Node → response.


End Meets.

(** * The claims *)

(** C7, as stated, fails: movie 20 lists person 1 in its cast, the movie
    credits of person 1 do not list movie 20, and the search from person 1
    to person 3 returns the path through movie 20, which side B found from
    the movie: movie 20 is not in the neighbour set of person 1. *)
Lemma path_over_one_way_credit :
  (bidir_bfs_people one_way 6 1 3 4 cold).1
    = Return (Some [(person, 1); (movie, 20); (person, 3)]) ∧
  (movie, 20) ∉ neighbours one_way (person, 1) ∧
  ¬ linked one_way [(person, 1); (movie, 20); (person, 3)].
Proof.
  split; [vm_compute; reflexivity|].
  assert ((movie, 20) ∉ neighbours one_way (person, 1)) as H by compute_done.
  split; [done|]. by intros [Hadj _].
Qed.

(** C7, amended. On caches that hold answers of the provider, every path
    the search returns starts at the source, ends at the target and
    alternates between people and movies; for the same person on both ends
    it is the one-node path. Up to the meeting node each node is in the
    neighbour set of the node before it; from the meeting node on, each
    node has the node before it in its own neighbour set, since side B
    found it from the target. When the provider lists every credit on both
    of its ends, every node of the path is in the neighbour set of the node
    before it. *)
Theorem returned_path_is_genuine tmdb fuel source_id target_id max_edges w path :
  coherent tmdb w →
  (bidir_bfs_people tmdb fuel source_id target_id max_edges w).1 = Return (Some path) →
  head path = Some (person, source_id) ∧ last path = Some (person, target_id) ∧
  alternates path ∧
  (∃ l1 m l2, path = l1 ++ m :: l2 ∧
     linked tmdb (l1 ++ [m]) ∧ linked tmdb (reverse (m :: l2))) ∧
  (symmetric tmdb → linked tmdb path) ∧
  (source_id = target_id → path = [(person, source_id)]).
Proof.
  intros Hw Hrun.
  destruct (decide (source_id = target_id)) as [->|Hne].
  { unfold bidir_bfs_people in Hrun. rewrite decide_True in Hrun by done.
    injection Hrun as <-. split_and!; try done.
    by exists [], (person, target_id), []. }
  destruct (bidir_bfs_people _ _ _ _ _ _) as [r w'] eqn:Hb. cbn in Hrun. subst r.
  apply search_edges_ends in Hb; [|done..].
  inversion Hb as [| d m a b w1 [Hm [Hea Heb]] Hf | | |]; subst.
  destruct Hm as ((_ & Ha & _) & (_ & Hb' & _) & _ & _ & Hma & Hmb).
  destruct (Ha m Hma) as (la & Hla & _). destruct (Hb' m Hmb) as (lb & Hlb & _).
  unfold found in Hf. destruct (reconstruct _ _ _ _) as [p|] eqn:Hrec; [|done].
  injection Hf as ->.
  apply (reconstruct_chain_inv _ _ _ _ _ _ _ _ _ Hla Hlb) in Hrec as ->.
  destruct (chains_ends _ _ _ _ _ _ _ Hla Hlb) as (Hh & Hl & l1 & l2 & Ela & Elb & Hp).
  pose proof (chain_linked_rev tmdb _ _ _ _ Hea Hla) as Hlink_a.
  pose proof (chain_linked_rev tmdb _ _ _ _ Heb Hlb) as Hlink_b.
  rewrite Hp in *. subst la lb. rewrite reverse_cons in Hlink_a.
  split_and!; [done|done| | | |done].
  - apply alternates_join; [by apply (linked_alternates tmdb)|].
    rewrite <- (reverse_involutive (m :: l2)).
    by apply alternates_reverse, (linked_alternates tmdb).
  - by exists (reverse l1), m, l2.
  - intros Hsym. apply linked_join; [done|].
    by apply (chain_linked tmdb _ _ _ _ Hsym Heb Hlb).
Qed.

Lemma returned_path_is_genuine_witness :
  head [(person, 1); (movie, 20); (person, 3)] = Some (person, 1) ∧
  last [(person, 1); (movie, 20); (person, 3)] = Some (person, 3) ∧
  alternates [(person, 1); (movie, 20); (person, 3)] ∧
  (∃ l1 m l2, [(person, 1); (movie, 20); (person, 3)] = l1 ++ m :: l2 ∧
     linked one_way (l1 ++ [m]) ∧ linked one_way (reverse (m :: l2))) ∧
  (symmetric one_way → linked one_way [(person, 1); (movie, 20); (person, 3)]) ∧
  (1 = 3 → [(person, 1); (movie, 20); (person, 3)] = [(person, 1)]).
Proof.
  apply (returned_path_is_genuine one_way 6 1 3 4 cold).
  - apply coherent_cold.
  - vm_compute. reflexivity.
Defined.

Lemma search_finds_shortest tmdb fuel x y max_edges w p0 :
  symmetric tmdb → resolves_all tmdb → coherent tmdb w →
  path_between tmdb (person, x) (person, y) p0 →
  Z.of_nat (edge_count p0) ≤ max_edges →
  max_edges + 2 ≤ Z.of_nat fuel →
  ∃ path,
    (bidir_bfs_people tmdb fuel x y max_edges w).1 = Return (Some path) ∧
    path_between tmdb (person, x) (person, y) path ∧
    ∀ p, path_between tmdb (person, x) (person, y) p →
         (edge_count path ≤ edge_count p)%nat.
Proof.
  intros Hsym Hall Hw Hp0 Hk0 Hfuel.
  destruct (decide (x = y)) as [->|Hne].
  { exists [(person, y)]. unfold bidir_bfs_people. rewrite decide_True by done.
    split_and!; [done|done|]. intros p _. unfold edge_count. simpl. lia. }
  apply path_walk in Hp0 as Hw0.
  destruct (bidir_bfs_people _ _ _ _ _ _) as [r w'] eqn:Hb. cbn [fst].
  apply search_graph_ends in Hb; [|done..].
  inversion Hb as [d a b w1 [Hl Hg] Hguard|d m a b w1 [Hm Hg] Hf
                  |d a b w1 e w2 [Hl Hg] Hguard Hex|d a b w1 e w2 [Hl Hg] Hex
                  |a b w1 [Hl Hg] Hguard]; subst.
  - exfalso. apply Hguard.
    destruct Hg as (_ & _ & _ & Hca & Hcb & Hd & Hba & Hbb).
    assert ((person, x) ∈ visited a) as Hra by (apply (Hba 0%nat); [lia | apply walk_O]).
    assert ((person, y) ∈ visited b) as Hrb by (apply (Hbb 0%nat); [lia | apply walk_O]).
    split_and!.
    + intros Hq. apply (Hd (person, y)); [|done].
      by eapply closed_reach.
    + intros Hq. apply (Hd (person, x)); [done|].
      eapply closed_reach; [done..|]. by apply walk_sym.
    + pose proof (balls_apart tmdb Hsym _ _ _ _ _ _ _ Hba Hbb Hd Hw0). lia.
  - destruct (meeting_found _ _ _ _ _ _ _ _ _ fuel Hm) as (la & lb & _ & _ & _ & _ & Hfound).
    { destruct Hm as (_ & _ & _ & Hd & _). lia. }
    rewrite Hfound. eexists. split; [done|].
    destruct (meeting_path tmdb Hsym _ _ _ _ _ _ _ _ _ _ _ Hm Hg Hfound) as [Hp Hopt].
    split; [done|]. intros p Hp'. by apply Hopt, path_walk.
  - exfalso. destruct Hg as (Hw1 & _).
    destruct (expand_loop_returns tmdb (length (q a)) a (visited b)
                (logged (ERound (Z.of_nat d)) w1) Hall) as (res & s' & w3 & Hret);
      [done|done|].
    unfold expand in Hex. congruence.
  - exfalso. destruct Hg as (Hw1 & _).
    destruct (expand_loop_returns tmdb (length (q b)) b (visited a) w1 Hall)
      as (res & s' & w3 & Hret); [done|done|].
    unfold expand in Hex. congruence.
  - exfalso. lia.
Qed.

(** C1, amended. For a provider that lists every credit on both of its
    ends (each node is in the neighbour sets of its own neighbours, so
    every id that is listed resolves) and caches that hold its answers:
    when a path of at most [max_edges] edges joins two people, the search
    returns a path between them, and no path between them has fewer edges:
    the edge count of the returned path is the distance. Ids that no
    neighbour set lists need not resolve. *)
Theorem bidir_bfs_shortest tmdb fuel x y max_edges w p0 :
  symmetric tmdb → coherent tmdb w →
  path_between tmdb (person, x) (person, y) p0 →
  Z.of_nat (edge_count p0) ≤ max_edges →
  max_edges + 2 ≤ Z.of_nat fuel →
  ∃ path,
    (bidir_bfs_people tmdb fuel x y max_edges w).1 = Return (Some path) ∧
    path_between tmdb (person, x) (person, y) path ∧
    ∀ p, path_between tmdb (person, x) (person, y) p →
         (edge_count path ≤ edge_count p)%nat.
Proof. intros Hsym. by apply search_shortest_listed. Qed.

#[global] Instance adj_dec tmdb u v : Decision (adj tmdb u v).
Proof. unfold adj. apply _. Defined.

#[global] Instance linked_dec tmdb l : Decision (linked tmdb l).
Proof.
  induction l as [|u l IH]; [left; exact I|].
  destruct l as [|v l]; [left; exact I|]. simpl. apply _.
Defined.

Lemma bidir_bfs_shortest_witness :
  ∃ path,
    (bidir_bfs_people (unresolved (person, 99) (HTTPError 404) (tmdb_of chain_graph))
       6 1 3 4 cold).1 = Return (Some path) ∧
    path_between (unresolved (person, 99) (HTTPError 404) (tmdb_of chain_graph))
      (person, 1) (person, 3) path ∧
    ∀ p, path_between (unresolved (person, 99) (HTTPError 404) (tmdb_of chain_graph))
           (person, 1) (person, 3) p →
         (edge_count path ≤ edge_count p)%nat.
Proof.
  apply (bidir_bfs_shortest (unresolved (person, 99) (HTTPError 404) (tmdb_of chain_graph))
           6 1 3 4 cold
           [(person, 1); (movie, 10); (person, 2); (movie, 20); (person, 3)]).
  - apply unresolved_symmetric; [apply tmdb_of_symmetric | reflexivity].
  - apply coherent_cold.
  - split_and!; [reflexivity | reflexivity | compute_done].
  - vm_compute. discriminate.
  - lia.
Defined.

(** C1, as stated, fails: in the graph of the neighbour sets of
    [dead_link] a path of four edges joins the people 1 and 3, and the
    search with [max_edges = 4] returns no path: it raises the failure of
    the provider for movie 11, which person 1 lists. *)
Lemma dead_link_raises :
  path_between dead_link (person, 1) (person, 3)
    [(person, 1); (movie, 10); (person, 2); (movie, 20); (person, 3)] ∧
  Z.of_nat (edge_count [(person, 1); (movie, 10); (person, 2); (movie, 20); (person, 3)]) ≤ 4 ∧
  (bidir_bfs_people dead_link 6 1 3 4 cold).1 = Raise (HTTPError 404).
Proof.
  split_and!.
  - split_and!; [reflexivity | reflexivity | compute_done].
  - vm_compute. discriminate.
  - vm_compute. reflexivity.
Qed.

(** C8. For the same person on both ends the search returns the one-node
    path at once, whatever [max_edges] is: the state, with its log of
    provider calls and rounds, is as before. *)
Theorem same_person_single_node tmdb fuel x max_edges w :
  bidir_bfs_people tmdb fuel x x max_edges w = (Return (Some [(person, x)]), w).
Proof. unfold bidir_bfs_people. by rewrite decide_True. Qed.

(** C2, at the failing input. On the chain 1 - 10 - 2 - 20 - 3 no path
    between the people 1 and 3 has fewer than four edges, and yet the search
    with [max_edges = 2] returns the path of four edges: the loop guard
    compares the number of rounds, not the number of edges, with
    [max_edges]. *)
Theorem chain_max_edges_2_returns_4_edges :
  (bidir_bfs_people (tmdb_of chain_graph) 6 1 3 2 cold).1
    = Return (Some [(person, 1); (movie, 10); (person, 2); (movie, 20); (person, 3)]) ∧
  ∀ p, path_between (tmdb_of chain_graph) (person, 1) (person, 3) p →
       (4 ≤ edge_count p)%nat.
Proof.
  split; [vm_compute; reflexivity|].
  destruct (search_finds_shortest (tmdb_of chain_graph) 6 1 3 4 cold
              [(person, 1); (movie, 10); (person, 2); (movie, 20); (person, 3)])
    as (path & Hrun & _ & Hmin).
  - apply tmdb_of_symmetric.
  - apply tmdb_of_resolves_all.
  - apply coherent_cold.
  - split_and!; [reflexivity | reflexivity | compute_done].
  - vm_compute. discriminate.
  - lia.
  - assert (path = [(person, 1); (movie, 10); (person, 2); (movie, 20); (person, 3)])
      as ->.
    { vm_compute in Hrun. by injection Hrun as <-. }
    exact Hmin.
Qed.

(** C9. With caches that hold answers of the provider, warm or cold, the
    search gives the same result; so does a second call after the first. *)
Theorem repeated_search_same_result tmdb fuel source_id target_id max_edges w1 w2 :
  coherent tmdb w1 → coherent tmdb w2 →
  (bidir_bfs_people tmdb fuel source_id target_id max_edges w1).1
    = (bidir_bfs_people tmdb fuel source_id target_id max_edges w2).1 ∧
  (bidir_bfs_people tmdb fuel source_id target_id max_edges
     (bidir_bfs_people tmdb fuel source_id target_id max_edges w1).2).1
    = (bidir_bfs_people tmdb fuel source_id target_id max_edges w1).1.
Proof.
  intros H1 H2.
  destruct (ci_bidir_bfs_people tmdb fuel source_id target_id max_edges w1 w2 H1 H2)
    as [Heq Hc].
  split; [done|].
  by destruct (ci_bidir_bfs_people tmdb fuel source_id target_id max_edges _ w1 Hc H1).
Qed.

Lemma repeated_search_same_result_witness :
  (bidir_bfs_people (tmdb_of chain_graph) 6 1 3 4 cold).1
    = (bidir_bfs_people (tmdb_of chain_graph) 6 1 3 4
         (lookups (tmdb_of chain_graph) [(movie, 20); (person, 2)] cold)).1 ∧
  (bidir_bfs_people (tmdb_of chain_graph) 6 1 3 4
     (bidir_bfs_people (tmdb_of chain_graph) 6 1 3 4 cold).2).1
    = (bidir_bfs_people (tmdb_of chain_graph) 6 1 3 4 cold).1.
Proof.
  apply (repeated_search_same_result (tmdb_of chain_graph) 6 1 3 4 cold).
  - apply coherent_cold.
  - unfold lookups. cbn [foldl].
    apply fetch_coherent, fetch_coherent, coherent_cold.
Defined.

(** C4, as stated, fails: the people cache holds its 10,000 entries and
    the movie cache one more; the person asked for first, the least
    recently used key of all, is still cached. *)
Lemma caches_hold_10001_entries :
  Z.of_nat (length (cache_of person (fetch nobody (movie, 1) people_cached).2)
            + length (cache_of movie (fetch nobody (movie, 1) people_cached).2))
    = maxsize + 1 ∧
  1 ∈ (cache_of person (fetch nobody (movie, 1) people_cached).2).*1.
Proof.
  destruct people_cached_keys as [Hp Hm].
  assert (lru_find 1 (cache_of movie people_cached) = None) as Hf by (by rewrite Hm).
  assert (nobody (movie, 1) = Cast []) as Ht by reflexivity.
  rewrite (fetch_miss _ _ _ _ _ Hf Ht). cbn [snd].
  rewrite cache_of_set, cache_of_set_ne by discriminate.
  rewrite !cache_of_logged, Hm. rewrite <- (length_fmap fst (cache_of person people_cached)), Hp.
  rewrite length_reverse, length_seqZ. split.
  - rewrite lru_store_not_full by (by unfold maxsize).
    cbn [length]. rewrite Nat2Z.inj_add, Z2Nat.id by (by unfold maxsize). reflexivity.
  - apply elem_of_reverse, elem_of_seqZ. unfold maxsize. lia.
Qed.

(** C4, amended. Each of the two caches has its own budget of 10,000
    entries. After any sequence of cached calls on caches that started
    empty, the keys of the cache of a type are the keys of that type that
    were accessed (looked up with an answer, from the cache or from the
    provider), each once, the most recently accessed first, and of these
    the first 10,000: calls for nodes of the other type do not count. Each
    key is cached with what the provider answers for it. A miss on a full
    cache evicts exactly the least recently accessed key, the last one, and
    the other keys answer as before. *)
Theorem adjacency_caches_lru tmdb ns t :
  (cache_of t (lookups tmdb ns cold)).*1
    = take (Z.to_nat maxsize) (recent (answered tmdb t ns)) ∧
  Z.of_nat (length (cache_of t (lookups tmdb ns cold))) ≤ maxsize ∧
  (∀ k v, (k, v) ∈ cache_of t (lookups tmdb ns cold) →
     ∃ cast, tmdb (t, k) = Cast cast ∧ v = sorted_ids cast) ∧
  (∀ k, cache_of (other_type t) (lookups tmdb (ns ++ [(t, k)]) cold)
        = cache_of (other_type t) (lookups tmdb ns cold)) ∧
  (∀ k kl cast,
     Z.of_nat (length (cache_of t (lookups tmdb ns cold))) = maxsize →
     last (cache_of t (lookups tmdb ns cold)).*1 = Some kl →
     k ∉ (cache_of t (lookups tmdb ns cold)).*1 →
     tmdb (t, k) = Cast cast →
     lru_find kl (cache_of t (lookups tmdb (ns ++ [(t, k)]) cold)) = None ∧
     lru_find k (cache_of t (lookups tmdb (ns ++ [(t, k)]) cold))
       = Some (sorted_ids cast) ∧
     ∀ k', k' ≠ kl → k' ≠ k →
       lru_find k' (cache_of t (lookups tmdb (ns ++ [(t, k)]) cold))
       = lru_find k' (cache_of t (lookups tmdb ns cold))).
Proof.
  pose proof (lookups_wf tmdb ns t) as Hwf.
  pose proof (lookups_coherent tmdb ns cold (coherent_cold tmdb)) as Hcoh.
  split_and!.
  - apply lookups_keys.
  - by destruct Hwf.
  - intros k v Hin. by apply (proj1 (coherent_cache_of tmdb _) Hcoh t).
  - intros k. rewrite lookups_snoc. apply fetch_other, other_type_ne.
  - intros k kl cast Hlen Hlast Hk Ht. rewrite lookups_snoc.
    set (w := lookups tmdb ns cold) in *.
    rewrite fmap_last in Hlast.
    destruct (last (cache_of t w)) as [[kl' vl]|] eqn:Hl; [|done].
    injection Hlast as ->. apply last_Some in Hl as [c0 Hc].
    apply lru_find_None in Hk as Hf.
    assert ((fetch tmdb (t, k) w).1 = Return (sorted_ids cast)) as Hr
      by (by rewrite (fetch_miss _ _ _ _ _ Hf Ht)).
    rewrite (fetch_evicts tmdb _ _ _ _ _ _ _ Hc Hlen Hf Hr).
    destruct Hwf as [Hnd _]. rewrite Hc in Hnd, Hk |- *.
    rewrite fmap_app in Hnd, Hk. apply NoDup_app in Hnd as (_ & Hnd & _).
    assert (kl ≠ k) as Hne.
    { intros ->. apply Hk, elem_of_app. right. left. }
    assert (kl ∉ c0.*1) as Hkl.
    { intros Hin. apply (Hnd kl Hin). left. }
    split_and!.
    + rewrite lru_find_other by done. by apply lru_find_None.
    + simpl. by rewrite decide_True.
    + intros k' Hk1 Hk2. rewrite lru_find_other by done.
      destruct (lru_find k' c0) as [v'|] eqn:Hf'.
      * symmetry. by apply lru_find_app_l.
      * rewrite lru_find_app_None by (by apply lru_find_None).
        simpl. by rewrite decide_False.
Qed.

Lemma adjacency_caches_lru_witness :
  lru_find 1 (cache_of person people_cached) ≠ None ∧
  lru_find 1 (cache_of person
                (lookups nobody (((λ i, (person, i)) <$> seqZ 1 maxsize) ++ [(person, 10001)])
                   cold)) = None ∧
  lru_find 10001 (cache_of person
                (lookups nobody (((λ i, (person, i)) <$> seqZ 1 maxsize) ++ [(person, 10001)])
                   cold)) = Some (sorted_ids []) ∧
  lru_find 2 (cache_of person
                (lookups nobody (((λ i, (person, i)) <$> seqZ 1 maxsize) ++ [(person, 10001)])
                   cold)) = lru_find 2 (cache_of person people_cached).
Proof.
  destruct people_cached_full as (Hlen & Hlast & Hk & Hone).
  destruct (adjacency_caches_lru nobody ((λ i, (person, i)) <$> seqZ 1 maxsize) person)
    as (_ & _ & _ & _ & Hevict).
  rewrite <- people_cached_lookups in Hevict.
  destruct (Hevict 10001 1 [] Hlen Hlast Hk eq_refl) as (H1 & H2 & H3).
  split_and!; [exact Hone | exact H1 | exact H2 | apply H3; clear; lia].
Defined.

(** ** Failures of the provider *)

Section Failures.

Variable tmdb : Node → response.

Lemma surfaces_ret {A} (a : A) : surfaces tmdb (ret a).
Proof. intros w. exists []. rewrite app_nil_r. split; [done|]. by intros n e ?%elem_of_nil. Qed.

Lemma surfaces_raise {A} e : surfaces tmdb (@raise A e).
Proof. intros w. exists []. rewrite app_nil_r. split; [done|]. by intros n e' ?%elem_of_nil. Qed.

Lemma surfaces_out_of_fuel {A} : surfaces tmdb (@out_of_fuel A).
Proof. intros w. exists []. rewrite app_nil_r. split; [done|]. by intros n e ?%elem_of_nil. Qed.

Lemma surfaces_log ev : (∀ n, ev ≠ EFetch n) → surfaces tmdb (log ev).
Proof.
  intros Hev w. exists [ev]. split; [done|].
  intros n e Hin%list_elem_of_singleton. by destruct (Hev n).
Qed.

Lemma surfaces_bind {A B} (m : M A) (k : A → M B) :
  surfaces tmdb m → (∀ a, surfaces tmdb (k a)) → surfaces tmdb (bind m k).
Proof.
  intros Hm Hk w. destruct (Hm w) as (evs1 & Htr1 & Hf1). unfold bind.
  destruct (m w) as [[|e1|a] w1]; cbn [fst snd] in *.
  - exists evs1. split; [done|]. intros n e Hin Hn. by specialize (Hf1 n e Hin Hn).
  - exists evs1. split; [done|]. intros n e Hin Hn.
    specialize (Hf1 n e Hin Hn). by injection Hf1 as ->.
  - destruct (Hk a w1) as (evs2 & Htr2 & Hf2). exists (evs1 ++ evs2). split.
    + by rewrite Htr2, Htr1, app_assoc.
    + intros n e [Hin|Hin]%elem_of_app Hn; [|by apply (Hf2 n e)].
      by specialize (Hf1 n e Hin Hn).
Qed.

Lemma surfaces_fetch n : surfaces tmdb (fetch tmdb n).
Proof.
  intros w. eexists. split; [apply fetch_trace|].
  destruct n as [t k]. cbn [fst snd].
  destruct (lru_find k (cache_of t w)) as [v|] eqn:Hf; [by intros n e ?%elem_of_nil|].
  intros n e Hin%list_elem_of_singleton Hn. injection Hin as ->.
  by rewrite (fetch_fail _ _ _ _ _ Hf Hn).
Qed.

Lemma surfaces_expand_loop n s other : surfaces tmdb (expand_loop tmdb n s other).
Proof.
  revert s. induction n as [|n IH]; intros s; [apply surfaces_ret|].
  simpl. destruct (q s) as [|[t i] rest]; [apply surfaces_raise|].
  apply surfaces_bind; [by apply surfaces_log|]. intros _.
  apply surfaces_bind.
  - change (surfaces tmdb (fetch tmdb (t, i))). apply surfaces_fetch.
  - intros ids. destruct (scan _ _ _ _ _) as [[m|] s1]; [apply surfaces_ret | apply IH].
Qed.

Lemma surfaces_reconstruct_m fuel pa pb m : surfaces tmdb (reconstruct_m fuel pa pb m).
Proof.
  unfold reconstruct_m.
  destruct (reconstruct _ _ _ _); [apply surfaces_ret | apply surfaces_out_of_fuel].
Qed.

Lemma surfaces_search_loop fuel rfuel max_edges depth a b :
  surfaces tmdb (search_loop tmdb fuel rfuel max_edges depth a b).
Proof.
  revert depth a b. induction fuel as [|fuel IH]; intros depth a b; simpl.
  - case_decide; [apply surfaces_out_of_fuel | apply surfaces_ret].
  - case_decide; [|apply surfaces_ret].
    apply surfaces_bind; [by apply surfaces_log|]. intros _.
    apply surfaces_bind; [apply surfaces_expand_loop|]. intros [[m|] a'].
    + apply surfaces_reconstruct_m.
    + apply surfaces_bind; [apply surfaces_expand_loop|]. intros [[m|] b'].
      * apply surfaces_reconstruct_m.
      * apply IH.
Qed.

(** Whatever provider call fails during a search, the search raises its
    failure. *)
Lemma surfaces_bidir_bfs_people fuel source_id target_id max_edges :
  surfaces tmdb (bidir_bfs_people tmdb fuel source_id target_id max_edges).
Proof.
  unfold bidir_bfs_people. case_decide; [apply surfaces_ret | apply surfaces_search_loop].
Qed.

End Failures.

(** C5. A cached call whose provider call fails raises the failure and
    leaves both caches as they were, without an entry for the node; a
    search during which the call fails raises the failure; the next cached
    call for the node calls the provider again and answers what it
    answers then. *)
Theorem failed_fetch_not_cached tmdb t k w e :
  lru_find k (cache_of t w) = None → tmdb (t, k) = Failed e →
  fetch tmdb (t, k) w = (Raise e, logged (EFetch (t, k)) w) ∧
  lru_find k (cache_of t (fetch tmdb (t, k) w).2) = None ∧
  (∀ fuel source_id target_id max_edges w0,
     ∃ evs,
       trace (bidir_bfs_people tmdb fuel source_id target_id max_edges w0).2
         = trace w0 ++ evs ∧
       (EFetch (t, k) ∈ evs →
        (bidir_bfs_people tmdb fuel source_id target_id max_edges w0).1 = Raise e)) ∧
  (∀ tmdb' cast, tmdb' (t, k) = Cast cast →
     (fetch tmdb' (t, k) (fetch tmdb (t, k) w).2).1 = Return (sorted_ids cast) ∧
     trace (fetch tmdb' (t, k) (fetch tmdb (t, k) w).2).2
       = trace (fetch tmdb (t, k) w).2 ++ [EFetch (t, k)]).
Proof.
  intros Hf Ht. rewrite (fetch_fail _ _ _ _ _ Hf Ht). cbn [snd].
  rewrite cache_of_logged. split_and!; [done|done| |].
  - intros fuel x y max_edges w0.
    destruct (surfaces_bidir_bfs_people tmdb fuel x y max_edges w0) as (evs & Htr & Hs).
    exists evs. split; [done|]. intros Hin. by apply (Hs (t, k)).
  - intros tmdb' cast Ht'.
    assert (lru_find k (cache_of t (logged (EFetch (t, k)) w)) = None) as Hf'
      by (by rewrite cache_of_logged).
    rewrite (fetch_miss _ _ _ _ _ Hf' Ht'). cbn [fst snd].
    by rewrite trace_set_cache.
Qed.

Lemma failed_fetch_not_cached_witness :
  fetch (unresolved (movie, 10) ConnectionError (tmdb_of chain_graph)) (movie, 10) cold
    = (Raise ConnectionError, logged (EFetch (movie, 10)) cold) ∧
  (bidir_bfs_people (unresolved (movie, 10) ConnectionError (tmdb_of chain_graph))
     6 1 3 4 cold).1 = Raise ConnectionError.
Proof.
  destruct (failed_fetch_not_cached
              (unresolved (movie, 10) ConnectionError (tmdb_of chain_graph))
              movie 10 cold ConnectionError) as (H1 & _ & H3 & _);
    [reflexivity | reflexivity |].
  split; [exact H1|].
  destruct (H3 6%nat 1 3 4 cold) as (evs & Htr & Hraise).
  apply Hraise. vm_compute in Htr. subst evs. do 7 right. left.
Defined.

(** ** Roots that the provider does not resolve *)


Section Roots.

Variable tmdb : Node → response.






End Roots.




(** ** Meetings *)





(** ** Termination *)

(** C10, as stated, fails in its last part: the queue of side B of the fork
    holds two nodes, and [expand] dequeues one. *)
Lemma expand_dequeues_fewer_than_queued :
  length (q fork_side) = 2%nat ∧
  dequeues (trace (expand (tmdb_of fork_graph) fork_side fork_other cold).2)
    = [(movie, 20)].
Proof. split; vm_compute; reflexivity. Qed.

(** C10, amended. On fuel above [max_edges + 1] the search ends, whatever
    the provider answers: the body of the loop is entered at most
    [max_edges + 1] times. Each call of [expand] dequeues nodes that were in
    the queue when it was called, from the front, and all of them when it
    finds no meeting. *)
Theorem search_terminates tmdb fuel source_id target_id max_edges w :
  max_edges + 2 ≤ Z.of_nat fuel →
  (bidir_bfs_people tmdb fuel source_id target_id max_edges w).1 ≠ OutOfFuel ∧
  (∃ evs,
     trace (bidir_bfs_people tmdb fuel source_id target_id max_edges w).2
       = trace w ++ evs ∧
     (length (rounds evs) ≤ Z.to_nat (max_edges + 1))%nat) ∧
  (∀ s other w1, ∃ evs k,
     trace (expand tmdb s other w1).2 = trace w1 ++ evs ∧
     dequeues evs = take k (q s) ∧
     ∀ s', (expand tmdb s other w1).1 = Return (None, s') → dequeues evs = q s).
Proof.
  intros Hfuel.
  destruct (bidir_bfs_people tmdb fuel source_id target_id max_edges w) as [r w'] eqn:Hb.
  destruct (search_rounds _ _ _ _ _ _ _ _ Hfuel Hb) as [Hr Hev].
  split_and!; [done..|].
  intros s other w1. destruct (expand tmdb s other w1) as [r1 w2] eqn:Hex.
  unfold expand in Hex.
  apply expand_loop_trace in Hex as (evs & k & Htr & _ & Hdq & Hk & Hall); [|done].
  exists evs, k. split_and!; [done..|].
  intros s' Hs'. cbn [fst] in Hs'. rewrite Hdq, (Hall _ Hs'). apply firstn_all.
Qed.

Lemma search_terminates_witness :
  (bidir_bfs_people (tmdb_of chain_graph) 6 1 3 4 cold).1 ≠ OutOfFuel.
Proof.
  destruct (search_terminates (tmdb_of chain_graph) 6 1 3 4 cold) as [H _]; [lia|].
  exact H.
Defined.

(** * Further properties *)

(** ** Chains never repeat a node *)

Lemma chain_suffix pa r v l x :
  chain pa r v l → x ∈ l → ∃ l', chain pa r x l' ∧ (length l' ≤ length l)%nat.
Proof.
  induction 1 as [Hr|v p l Hv Hc IH].
  - intros ->%list_elem_of_singleton. exists [r]. split; [by apply chain_root | done].
  - intros [->|Hx]%elem_of_cons.
    + exists (v :: l). split; [by apply chain_step with p | done].
    + destruct (IH Hx) as (l' & Hl' & Hlen). exists l'. split; [done | simpl; lia].
Qed.

Lemma chain_NoDup pa r v l : chain pa r v l → NoDup l.
Proof.
  induction 1 as [Hr|v p l Hv Hc IH]; [apply NoDup_singleton|].
  apply NoDup_cons. split; [|done]. intros Hin.
  destruct (chain_suffix _ _ _ _ _ Hc Hin) as (l' & Hl' & Hlen).
  assert (chain pa r v (v :: l)) as Hvl by (by apply chain_step with p).
  pose proof (chain_det _ _ _ _ _ Hl' Hvl) as ->. simpl in Hlen. lia.
Qed.

Lemma chain_visited pa r v l x : chain pa r v l → x ∈ l → is_Some (pa !! x).
Proof.
  induction 1 as [Hr|v p l Hv Hc IH].
  - intros ->%list_elem_of_singleton. by rewrite Hr.
  - intros [->|Hx]%elem_of_cons; [by rewrite Hv | auto].
Qed.

(** ** Sides that stay apart *)

Section Apart.

Variable tmdb : Node → response.

(** A side that is apart from the other side's visited set stays apart
    unless it reports a meeting, and then the meeting node is the only
    node that both have visited. *)
Lemma expand_apart s other w res s' w' :
  visited s ## other →
  expand tmdb s other w = (Return (res, s'), w') →
  match res with
  | None => visited s' ## other
  | Some m => ∀ x, x ∈ visited s' → x ∈ other → x = m
  end.
Proof.
  intros Hd Hex. unfold expand in Hex.
  apply (expand_loop_rule tmdb other
           (λ _ s1 _, visited s1 ## other)
           (λ m s1 _, ∀ x, x ∈ visited s1 → x ∈ other → x = m))
    with (n := length (q s)) (s := s) (w := w) (w' := w'); [|done|done].
  clear. intros n s1 w1 u rest ids w2 r s2 Hd Hq Hf Hs.
  apply scan_scanned in Hs as (new & _ & Hvis & _ & _ & _ & Hres).
  cbn [visited] in *. destruct r as [m|].
  - destruct Hres as (Hm & new0 & -> & Hn0). intros x.
    rewrite Hvis, elem_of_union, elem_of_list_to_set, elem_of_app.
    intros [Hx|[Hx|Hx%list_elem_of_singleton]] Ho; [|by destruct (Hn0 x)|done].
    by destruct (Hd x).
  - destruct Hres as [_ Hoth]. rewrite Hvis. apply disjoint_union_l. split; [done|].
    intros x Hx%elem_of_list_to_set. by apply Hoth.
Qed.

Variable max_edges : Z.
Variables ra rb : Node.
Variable w0 : world.

Lemma apart_step_a d a b w res a' w1 :
  level max_edges ra rb w0 d a b w ∧ visited a ## visited b →
  q a ≠ [] ∧ q b ≠ [] ∧ Z.of_nat d ≤ max_edges →
  expand tmdb a (visited b) (logged (ERound (Z.of_nat d)) w) = (Return (res, a'), w1) →
  match res with
  | None => half_level max_edges ra rb w0 d a' b w1 ∧ visited a' ## visited b
  | Some m => meeting max_edges ra rb w0 d m a' b w1 ∧
              ∀ x, x ∈ visited a' → x ∈ visited b → x = m
  end.
Proof.
  intros [Hl Hd] Hg Hex.
  pose proof (level_step_a _ _ _ _ _ _ _ _ _ _ _ _ Hl Hg Hex) as Hl'.
  pose proof (expand_apart _ _ _ _ _ _ Hd Hex) as Hd'.
  by destruct res.
Qed.

Lemma apart_step_b d a b w res b' w1 :
  half_level max_edges ra rb w0 d a b w ∧ visited a ## visited b →
  expand tmdb b (visited a) w = (Return (res, b'), w1) →
  match res with
  | None => level max_edges ra rb w0 (S d) a b' w1 ∧ visited a ## visited b'
  | Some m => meeting max_edges ra rb w0 d m a b' w1 ∧
              ∀ x, x ∈ visited a → x ∈ visited b' → x = m
  end.
Proof.
  intros [Hl Hd] Hex.
  pose proof (level_step_b _ _ _ _ _ _ _ _ _ _ _ _ Hl Hex) as Hl'.
  assert (visited b ## visited a) as Hd0 by done.
  pose proof (expand_apart _ _ _ _ _ _ Hd0 Hex) as Hd'.
  destruct res; [split; [done|]; intros x ??; by apply Hd' | by split].
Qed.

End Apart.

(** How a search over distinct roots can end, whatever the provider
    answers and the caches hold. *)
Lemma search_apart_ends tmdb fuel x y max_edges w r w' :
  x ≠ y →
  bidir_bfs_people tmdb fuel x y max_edges w = (r, w') →
  ends tmdb max_edges
    (λ d a b w1, level max_edges (person, x) (person, y) w d a b w1 ∧
                 visited a ## visited b)
    (λ d a b w1, half_level max_edges (person, x) (person, y) w d a b w1 ∧
                 visited a ## visited b)
    (λ d m a b w1, meeting max_edges (person, x) (person, y) w d m a b w1 ∧
                   ∀ z, z ∈ visited a → z ∈ visited b → z = m)
    fuel fuel r w'.
Proof.
  intros Hxy. unfold bidir_bfs_people. rewrite decide_False by done.
  intros Hrun. eapply (search_loop_ends tmdb max_edges) with (d := 0%nat) in Hrun.
  - exact Hrun.
  - intros d a b w1 res a' w2 H1 H2 H3.
    exact (apart_step_a tmdb _ _ _ _ _ _ _ _ _ _ _ H1 H2 H3).
  - intros d a b w1 res b' w2 H1 H2.
    exact (apart_step_b tmdb _ _ _ _ _ _ _ _ _ _ _ H1 H2).
  - split; [apply level_root|]. unfold root. cbn [visited].
    apply disjoint_singleton_l. rewrite elem_of_singleton. congruence.
Qed.

(** X1. Whatever the provider answers and the caches hold, a returned path
    is not empty, visits no node twice and has at most [2 * max_edges + 2]
    edges (none when the two people are the same). *)
Theorem returned_path_simple_and_bounded tmdb fuel x y max_edges w path :
  (bidir_bfs_people tmdb fuel x y max_edges w).1 = Return (Some path) →
  path ≠ [] ∧ NoDup path ∧
  (x = y → path = [(person, x)]) ∧
  (x ≠ y → Z.of_nat (edge_count path) ≤ 2 * max_edges + 2).
Proof.
  intros Hrun. destruct (decide (x = y)) as [->|Hne].
  { unfold bidir_bfs_people in Hrun. rewrite decide_True in Hrun by done.
    injection Hrun as <-. split_and!; [done|apply NoDup_singleton|done|done]. }
  destruct (bidir_bfs_people _ _ _ _ _ _) as [r w'] eqn:Hb. cbn in Hrun. subst r.
  apply search_apart_ends in Hb; [|done].
  inversion Hb as [|d m a b w1 [Hm Hone] Hf| | |]; subst.
  destruct Hm as ((Ha1 & Ha & _) & (Hb1 & Hb2 & _) & _ & Hd & Hma & Hmb).
  destruct (Ha m Hma) as (la & Hla & Hlen_a). destruct (Hb2 m Hmb) as (lb & Hlb & Hlen_b).
  unfold found in Hf. destruct (reconstruct _ _ _ _) as [p|] eqn:Hrec; [|done].
  injection Hf as ->.
  apply (reconstruct_chain_inv _ _ _ _ _ _ _ _ _ Hla Hlb) in Hrec as ->.
  pose proof (chain_NoDup _ _ _ _ Hla) as Hnda.
  pose proof (chain_NoDup _ _ _ _ Hlb) as Hndb.
  pose proof (chain_head _ _ _ _ Hla) as Hha.
  pose proof (chain_head _ _ _ _ Hlb) as Hhb.
  destruct la as [|? la]; [done|]. injection Hha as ->.
  destruct lb as [|? lb]; [done|]. injection Hhb as ->.
  cbn [tail]. split_and!; [| |done|].
  - rewrite reverse_cons. intros H%(f_equal length).
    rewrite !length_app in H. simpl in H. lia.
  - apply NoDup_app. split_and!.
    + by rewrite reverse_Permutation.
    + intros z Hz Hz'. rewrite elem_of_reverse in Hz.
      apply NoDup_cons in Hndb as [Hmlb _].
      assert (z = m) as ->; [|done].
      apply Hone.
      * apply Ha1. by eapply chain_visited.
      * apply Hb1. eapply chain_visited; [exact Hlb | by right].
    + by apply NoDup_cons in Hndb as [_ ?].
  - intros _. unfold edge_count. rewrite length_app, length_reverse.
    simpl in *. lia.
Qed.

Lemma returned_path_simple_and_bounded_witness :
  NoDup [(person, 1); (movie, 10); (person, 2); (movie, 20); (person, 3)].
Proof.
  destruct (returned_path_simple_and_bounded (tmdb_of chain_graph) 6 1 3 2 cold
              [(person, 1); (movie, 10); (person, 2); (movie, 20); (person, 3)])
    as (_ & H & _); [vm_compute; reflexivity|].
  exact H.
Defined.

(** ** What [max_edges] bounds *)

Section Exact.

Variable tmdb : Node → response.
Hypothesis tmdb_symmetric : symmetric tmdb.

Lemma linked_reverse l : linked tmdb l → linked tmdb (reverse l).
Proof.
  induction l as [|u l IH]; [done|]. intros Hl.
  rewrite reverse_cons. destruct l as [|v l]; [done|].
  destruct Hl as [Huv Hl]. apply linked_snoc with v; [by apply IH| |by apply tmdb_symmetric].
  by rewrite last_reverse.
Qed.

Lemma path_reverse x y l :
  path_between tmdb x y l →
  path_between tmdb y x (reverse l) ∧ edge_count (reverse l) = edge_count l.
Proof.
  intros (Hh & Hl & Hlink). split; [split_and!|].
  - by rewrite head_reverse.
  - by rewrite last_reverse.
  - by apply linked_reverse.
  - unfold edge_count. by rewrite length_reverse.
Qed.

Lemma search_exact fuel x y max_edges w :
  resolves_all tmdb → coherent tmdb w → x ≠ y → max_edges + 2 ≤ Z.of_nat fuel →
  match (bidir_bfs_people tmdb fuel x y max_edges w).1 with
  | Return (Some path) =>
      path_between tmdb (person, x) (person, y) path ∧
      (∀ p, path_between tmdb (person, x) (person, y) p →
            (edge_count path ≤ edge_count p)%nat) ∧
      Z.of_nat (edge_count path) ≤ 2 * max_edges + 2
  | Return None =>
      ∀ p, path_between tmdb (person, x) (person, y) p →
           2 * max_edges + 2 < Z.of_nat (edge_count p)
  | _ => False
  end.
Proof.
  intros Hall Hw Hne Hfuel.
  destruct (bidir_bfs_people _ _ _ _ _ _) as [r w'] eqn:Hb. cbn [fst].
  apply search_graph_ends in Hb; [|done..].
  inversion Hb as [d a b w1 [Hl Hg] Hguard|d m a b w1 [Hm Hg] Hf
                  |d a b w1 e w2 [Hl Hg] Hguard Hex|d a b w1 e w2 [Hl Hg] Hex
                  |a b w1 [Hl Hg] Hguard]; subst.
  - intros p Hp%path_walk.
    destruct Hg as (_ & _ & _ & Hca & Hcb & Hd & Hba & Hbb).
    pose proof (balls_apart tmdb tmdb_symmetric _ _ _ _ _ _ _ Hba Hbb Hd Hp) as Hlow.
    destruct (decide (Z.of_nat d ≤ max_edges)) as [Hle|Hgt]; [|lia].
    exfalso.
    assert ((person, x) ∈ visited a) as Hra by (apply (Hba 0%nat); [lia | apply walk_O]).
    assert ((person, y) ∈ visited b) as Hrb by (apply (Hbb 0%nat); [lia | apply walk_O]).
    destruct (decide (q a = [])) as [Hqa|Hqa].
    { apply (Hd (person, y)); [|done]. by eapply closed_reach. }
    destruct (decide (q b = [])) as [Hqb|Hqb].
    { apply (Hd (person, x)); [done|].
      eapply closed_reach; [done..|]. by apply walk_sym. }
    by apply Hguard.
  - destruct (meeting_found _ _ _ _ _ _ _ _ _ fuel Hm)
      as (la & lb & Hla & Hlb & Hlen_a & Hlen_b & Hfound).
    { destruct Hm as (_ & _ & _ & Hd & _). lia. }
    rewrite Hfound.
    destruct (meeting_path tmdb tmdb_symmetric _ _ _ _ _ _ _ _ _ _ _ Hm Hg Hfound)
      as [Hp Hopt].
    split_and!; [done| |].
    + intros p Hp'. by apply Hopt, path_walk.
    + destruct Hg as (_ & Hea & Heb & _).
      destruct (chains_path tmdb tmdb_symmetric _ _ _ _ _ _ _ Hea Heb Hla Hlb) as [_ Hlen].
      destruct Hm as (_ & _ & _ & Hd & _). lia.
  - destruct Hg as (Hw1 & _).
    destruct (expand_loop_returns tmdb (length (q a)) a (visited b)
                (logged (ERound (Z.of_nat d)) w1) Hall) as (res & s' & w3 & Hret);
      [done|done|].
    unfold expand in Hex. congruence.
  - destruct Hg as (Hw1 & _).
    destruct (expand_loop_returns tmdb (length (q b)) b (visited a) w1 Hall)
      as (res & s' & w3 & Hret); [done|done|].
    unfold expand in Hex. congruence.
  - lia.
Qed.

End Exact.

(** X2. For two distinct people, a provider that resolves every id and
    lists every credit on both of its ends, and caches that hold its
    answers: the search returns a shortest path exactly when a path of at
    most [2 * max_edges + 2] edges joins them, and [None] exactly when every
    path is longer. *)
Theorem search_finds_exactly tmdb fuel x y max_edges w :
  symmetric tmdb → resolves_all tmdb → coherent tmdb w →
  x ≠ y → max_edges + 2 ≤ Z.of_nat fuel →
  match (bidir_bfs_people tmdb fuel x y max_edges w).1 with
  | Return (Some path) =>
      path_between tmdb (person, x) (person, y) path ∧
      (∀ p, path_between tmdb (person, x) (person, y) p →
            (edge_count path ≤ edge_count p)%nat) ∧
      Z.of_nat (edge_count path) ≤ 2 * max_edges + 2
  | Return None =>
      ∀ p, path_between tmdb (person, x) (person, y) p →
           2 * max_edges + 2 < Z.of_nat (edge_count p)
  | _ => False
  end.
Proof. intros Hsym. by apply search_exact. Qed.

Lemma search_finds_exactly_witness :
  (bidir_bfs_people (tmdb_of chain_graph) 6 1 3 0 cold).1 = Return None ∧
  ∀ p, path_between (tmdb_of chain_graph) (person, 1) (person, 3) p →
       2 * 0 + 2 < Z.of_nat (edge_count p).
Proof.
  pose proof (search_finds_exactly (tmdb_of chain_graph) 6 1 3 0 cold
                (tmdb_of_symmetric chain_graph) (tmdb_of_resolves_all chain_graph)
                (coherent_cold _)) as H.
  assert ((bidir_bfs_people (tmdb_of chain_graph) 6 1 3 0 cold).1 = Return None) as Hr
    by (vm_compute; reflexivity).
  split; [exact Hr|].
  rewrite Hr in H. apply H; lia.
Defined.

(** X3. Under the same conditions the search from [y] to [x] ends like the
    search from [x] to [y]: both return [None], or paths with the same
    number of edges, also from different cache contents. *)
Theorem search_is_symmetric tmdb fuel x y max_edges w1 w2 :
  symmetric tmdb → resolves_all tmdb → coherent tmdb w1 → coherent tmdb w2 →
  x ≠ y → max_edges + 2 ≤ Z.of_nat fuel →
  match (bidir_bfs_people tmdb fuel x y max_edges w1).1,
        (bidir_bfs_people tmdb fuel y x max_edges w2).1 with
  | Return (Some p1), Return (Some p2) => edge_count p1 = edge_count p2
  | Return None, Return None => True
  | _, _ => False
  end.
Proof.
  intros Hsym Hall Hw1 Hw2 Hne Hfuel.
  pose proof (search_exact tmdb Hsym fuel x y max_edges w1 Hall Hw1 Hne Hfuel) as H1.
  assert (y ≠ x) as Hne' by congruence.
  pose proof (search_exact tmdb Hsym fuel y x max_edges w2 Hall Hw2 Hne' Hfuel) as H2.
  destruct (bidir_bfs_people tmdb fuel x y max_edges w1).1 as [|e1|[p1|]];
    destruct (bidir_bfs_people tmdb fuel y x max_edges w2).1 as [|e2|[p2|]];
    try done.
  - destruct H1 as (Hp1 & Hmin1 & _), H2 as (Hp2 & Hmin2 & _).
    destruct (path_reverse tmdb Hsym _ _ _ Hp1) as [Hr1 He1].
    destruct (path_reverse tmdb Hsym _ _ _ Hp2) as [Hr2 He2].
    specialize (Hmin1 _ Hr2). specialize (Hmin2 _ Hr1). lia.
  - destruct H1 as (Hp1 & _ & Hb1).
    destruct (path_reverse tmdb Hsym _ _ _ Hp1) as [Hr1 He1].
    specialize (H2 _ Hr1). lia.
  - destruct H2 as (Hp2 & _ & Hb2).
    destruct (path_reverse tmdb Hsym _ _ _ Hp2) as [Hr2 He2].
    specialize (H1 _ Hr2). lia.
Qed.

Lemma search_is_symmetric_witness :
  edge_count [(person, 1); (movie, 10); (person, 2); (movie, 20); (person, 3)]
  = edge_count [(person, 3); (movie, 20); (person, 2); (movie, 10); (person, 1)].
Proof.
  pose proof (search_is_symmetric (tmdb_of chain_graph) 6 1 3 4 cold cold
                (tmdb_of_symmetric chain_graph) (tmdb_of_resolves_all chain_graph)
                (coherent_cold _) (coherent_cold _)) as H.
  assert ((bidir_bfs_people (tmdb_of chain_graph) 6 1 3 4 cold).1
          = Return (Some [(person, 1); (movie, 10); (person, 2); (movie, 20); (person, 3)]))
    as Hr1 by (vm_compute; reflexivity).
  assert ((bidir_bfs_people (tmdb_of chain_graph) 6 3 1 4 cold).1
          = Return (Some [(person, 3); (movie, 20); (person, 2); (movie, 10); (person, 1)]))
    as Hr2 by (vm_compute; reflexivity).
  rewrite Hr1, Hr2 in H. apply H; lia.
Defined.

(** ** The search and the capacity of the caches *)

Section KeepsCapacity.

Variable tmdb : Node → response.

Lemma keeps_wf_ret {A} (a : A) : keeps_wf (ret a).
Proof. by intros w. Qed.

Lemma keeps_wf_raise {A} e : keeps_wf (@raise A e).
Proof. by intros w. Qed.

Lemma keeps_wf_out_of_fuel {A} : keeps_wf (@out_of_fuel A).
Proof. by intros w. Qed.

Lemma keeps_wf_log e : keeps_wf (log e).
Proof. by intros w. Qed.

Lemma keeps_wf_bind {A B} (m : M A) (k : A → M B) :
  keeps_wf m → (∀ a, keeps_wf (k a)) → keeps_wf (bind m k).
Proof.
  intros Hm Hk w Hw. unfold bind. specialize (Hm w Hw).
  destruct (m w) as [[|e|a] w1]; [done..|]. by apply Hk.
Qed.

Lemma keeps_wf_fetch n : keeps_wf (fetch tmdb n).
Proof.
  intros w [Hp Hm]. destruct n as [t k].
  destruct (fetch_caches tmdb t k w) as (H1 & H2 & _); [by destruct t|].
  destruct t; cbn [cache_of other_type] in *; split; congruence.
Qed.

Lemma keeps_wf_expand_loop n s other : keeps_wf (expand_loop tmdb n s other).
Proof.
  revert s. induction n as [|n IH]; intros s; [apply keeps_wf_ret|].
  simpl. destruct (q s) as [|[t i] rest]; [apply keeps_wf_raise|].
  apply keeps_wf_bind; [apply keeps_wf_log|]. intros _.
  apply keeps_wf_bind.
  - change (keeps_wf (fetch tmdb (t, i))). apply keeps_wf_fetch.
  - intros ids. destruct (scan _ _ _ _ _) as [[m|] s1]; [apply keeps_wf_ret | apply IH].
Qed.

Lemma keeps_wf_search_loop fuel rfuel max_edges depth a b :
  keeps_wf (search_loop tmdb fuel rfuel max_edges depth a b).
Proof.
  revert depth a b. induction fuel as [|fuel IH]; intros depth a b; simpl.
  - case_decide; [apply keeps_wf_out_of_fuel | apply keeps_wf_ret].
  - case_decide; [|apply keeps_wf_ret].
    apply keeps_wf_bind; [apply keeps_wf_log|]. intros _.
    apply keeps_wf_bind; [apply keeps_wf_expand_loop|]. intros [[m|] a'].
    + unfold reconstruct_m.
      destruct (reconstruct _ _ _ _); [apply keeps_wf_ret | apply keeps_wf_out_of_fuel].
    + apply keeps_wf_bind; [apply keeps_wf_expand_loop|]. intros [[m|] b'].
      * unfold reconstruct_m.
        destruct (reconstruct _ _ _ _); [apply keeps_wf_ret | apply keeps_wf_out_of_fuel].
      * apply IH.
Qed.

End KeepsCapacity.

(** X4. A search, however it ends, leaves each of the two caches with
    distinct keys and at most 10,000 entries, if it found them so. *)
Theorem search_keeps_capacity tmdb fuel source_id target_id max_edges w :
  lru_wf (person_movies_lru w) → lru_wf (movie_cast_lru w) →
  lru_wf (person_movies_lru
            (bidir_bfs_people tmdb fuel source_id target_id max_edges w).2) ∧
  lru_wf (movie_cast_lru
            (bidir_bfs_people tmdb fuel source_id target_id max_edges w).2).
Proof.
  intros Hp Hm. unfold bidir_bfs_people.
  case_decide; [done|]. by apply keeps_wf_search_loop.
Qed.

Lemma search_keeps_capacity_witness :
  lru_wf (person_movies_lru
            (bidir_bfs_people (tmdb_of chain_graph) 6 1 3 4 cold).2) ∧
  lru_wf (movie_cast_lru
            (bidir_bfs_people (tmdb_of chain_graph) 6 1 3 4 cold).2).
Proof.
  apply (search_keeps_capacity (tmdb_of chain_graph) 6 1 3 4 cold);
    (split; [apply NoDup_nil_2 | by unfold maxsize]).
Defined.

(** ** The order of the cached lists *)

Lemma sorted_ids_strict (cast : list Z) : StronglySorted Z.lt (sorted_ids cast).
Proof.
  pose proof (sorted_ids_NoDup cast) as Hnd.
  assert (StronglySorted Z.le (sorted_ids cast)) as Hs.
  { unfold sorted_ids. apply (StronglySorted_merge_sort Z.le). }
  induction Hs as [|i l Hs IH Hall]; [constructor|].
  apply NoDup_cons in Hnd as [Hi Hnd]. constructor; [by apply IH|].
  apply Forall_forall. intros j Hj.
  rewrite Forall_forall in Hall. specialize (Hall j Hj).
  assert (i ≠ j) by (by intros ->). lia.
Qed.

(** X5. With caches that hold answers of the provider, the list a cached
    adjacency call returns, hit or miss, is strictly ascending and holds
    exactly the ids of the cast entries the provider answers. *)
Theorem cached_list_sorted tmdb n w ids :
  coherent tmdb w → (fetch tmdb n w).1 = Return ids →
  StronglySorted Z.lt ids ∧
  ∃ cast, tmdb n = Cast cast ∧ ∀ i, i ∈ ids ↔ i ∈ cast.
Proof.
  intros Hw Hids. destruct (fetch_coherent tmdb n w Hw) as [Hr _].
  rewrite Hids in Hr. unfold resolve in Hr.
  destruct (tmdb n) as [e|cast]; [done|]. injection Hr as ->.
  split; [apply sorted_ids_strict|]. exists cast. split; [done|].
  intros i. apply elem_of_sorted_ids.
Qed.

Lemma cached_list_sorted_witness :
  StronglySorted Z.lt [10; 20] ∧
  ∃ cast, tmdb_of [(2, 20); (1, 10); (2, 10); (2, 20)] (person, 2) = Cast cast ∧
          ∀ i, i ∈ [10; 20] ↔ i ∈ cast.
Proof.
  apply (cached_list_sorted (tmdb_of [(2, 20); (1, 10); (2, 10); (2, 20)]) (person, 2) cold).
  - apply coherent_cold.
  - vm_compute. reflexivity.
Defined.

(** ** [expand] only adds *)

Lemma scanned_dom t u other ids s r s' new :
  dom (parents s) = visited s → scanned t u other ids s r s' new →
  dom (parents s') = visited s'.
Proof.
  intros Hdom (_ & Hvis & Hpa & _). apply set_eq. intros x.
  rewrite Hvis, elem_of_dom, Hpa, elem_of_union, elem_of_list_to_set, <- Hdom, elem_of_dom.
  case_decide; [split; [by right | by eauto] | tauto].
Qed.

(** X6. A call of [expand] on a side whose parent map has the visited
    nodes as its keys keeps it so and only adds: what was visited stays
    visited, with the parent it had; every node it adds gets a node of the
    given level as parent and is of the other type than its parent. *)
Theorem expand_only_adds tmdb s other w res s' w' :
  dom (parents s) = visited s →
  expand tmdb s other w = (Return (res, s'), w') →
  dom (parents s') = visited s' ∧ visited s ⊆ visited s' ∧
  (∀ x, x ∈ visited s → parents s' !! x = parents s !! x) ∧
  (∀ x, x ∈ visited s' → x ∉ visited s →
        ∃ u, u ∈ q s ∧ parents s' !! x = Some (Some u) ∧ x.1 = other_type u.1).
Proof.
  intros Hdom Hex. unfold expand in Hex.
  pose (P := λ (s1 : side),
    dom (parents s1) = visited s1 ∧ visited s ⊆ visited s1 ∧
    (∀ x, x ∈ visited s → parents s1 !! x = parents s !! x) ∧
    (∀ x, x ∈ visited s1 → x ∉ visited s →
          ∃ u, u ∈ q s ∧ parents s1 !! x = Some (Some u) ∧ x.1 = other_type u.1)).
  pose (I := λ (n : nat) (s1 : side) (_ : world),
    P s1 ∧ (n ≤ length (q s1))%nat ∧ ∀ u, u ∈ take n (q s1) → u ∈ q s).
  assert (match res with None => I 0%nat s' w' | Some m => (λ _ s1 _, P s1) m s' w' end)
    as Hres.
  { eapply (expand_loop_rule tmdb other I (λ _ s1 _, P s1)); [|..|exact Hex].
    - clear. intros n s1 w1 u rest ids w2 r s2
        ((Hdom & Hsub & Hold & Hnewp) & Hn & Hlevel) Hq Hf Hs.
      apply scan_scanned in Hs as (new & Hsc).
      pose proof (scanned_dom _ _ _ _ (Side rest (parents s1) (visited s1)) _ _ _
                    Hdom Hsc) as Hdom2.
      destruct Hsc as (Hq2 & Hvis2 & Hpa2 & Hnd & Hnew & Hres).
      cbn [q parents visited] in *.
      assert (u ∈ q s) as Hu.
      { apply Hlevel. rewrite Hq, firstn_cons. left. }
      assert (P s2) as HP.
      { split_and!.
        - done.
        - rewrite Hvis2. set_solver.
        - intros x Hx. rewrite Hpa2, decide_False; [by apply Hold|].
          intros Hin. destruct (Hnew _ Hin) as [Hnv _]. by apply Hnv, Hsub.
        - intros x. rewrite Hvis2, elem_of_union, elem_of_list_to_set, Hpa2.
          intros [Hx|Hx] Hnx.
          + rewrite decide_False; [by apply Hnewp|].
            intros Hin. by destruct (Hnew _ Hin) as [Hnv _].
          + rewrite decide_True by done. exists u. split_and!; [done..|].
            by destruct (Hnew _ Hx) as (_ & i & _ & ->). }
      destruct r as [m|]; [done|]. split; [done|].
      rewrite Hq in Hn. simpl in Hn. split.
      + rewrite Hq2, length_app. lia.
      + intros v. rewrite Hq2, take_app_le by lia. intros Hv.
        apply Hlevel. rewrite Hq, firstn_cons. by right.
    - split; [|split; [done|]].
      + split_and!; [done..|]. intros x Hx Hnx. done.
      + intros u Hu. apply elem_of_take in Hu as (j & Hu & _).
        by eapply list_elem_of_lookup_2. }
  destruct res as [m|]; [exact Hres | by destruct Hres].
Qed.

Lemma expand_only_adds_witness :
  dom (parents fork_side) = visited fork_side ∧
  ∃ res s' w',
    expand (tmdb_of fork_graph) fork_side fork_other cold = (Return (res, s'), w') ∧
    parents s' !! (movie, 20) = parents fork_side !! (movie, 20).
Proof.
  assert (dom (parents fork_side) = visited fork_side) as Hdom
    by (vm_compute; reflexivity).
  split; [exact Hdom|].
  eexists _, _, _. split; [vm_compute; reflexivity|].
  edestruct (expand_only_adds (tmdb_of fork_graph) fork_side fork_other cold)
    as (_ & _ & Hold & _); [exact Hdom | vm_compute; reflexivity |].
  apply (Hold (movie, 20)). compute_done.
Defined.

(** ** Ages *)

Lemma before_in_year_spec e b :
  before_in_year e b = true ↔
  month e < month b ∨ (month e = month b ∧ day e < day b).
Proof.
  unfold before_in_year.
  rewrite orb_true_iff, andb_true_iff, !Z.ltb_lt, Z.eqb_eq. tauto.
Qed.

(** X7. For a birthday and an end date that parse, [calc_age] is the
    difference of the years, less one exactly when the end date comes
    before the birthday within its year; it is not negative when the
    birthday is not after the end date. *)
Theorem calc_age_of_dates strptime today birthday deathday b e :
  truthy birthday = true →
  strptime (default "" birthday) = Some b →
  age_end strptime today deathday = Some e →
  ∃ a, calc_age strptime today birthday deathday = Parsed (Some a) ∧
       year e - year b - 1 ≤ a ≤ year e - year b ∧
       (a = year e - year b ↔
        month b < month e ∨ (month b = month e ∧ day b ≤ day e)) ∧
       (date_le b e → 0 ≤ a).
Proof.
  intros Ht Hb He. unfold calc_age. rewrite Ht, Hb, He. cbn [negb].
  eexists. split; [done|].
  pose proof (before_in_year_spec e b) as Hspec. unfold date_le.
  destruct (before_in_year e b).
  - assert (month e < month b ∨ month e = month b ∧ day e < day b) as H
      by (by apply Hspec).
    split_and!; lia.
  - assert (¬ (month e < month b ∨ month e = month b ∧ day e < day b)) as H.
    { intros H. by apply Hspec in H. }
    split_and!; lia.
Qed.

Lemma calc_age_of_dates_witness :
  ∃ a, calc_age strptime_demo (Date 2026 11 4) (Some "1964-09-02") None
         = Parsed (Some a) ∧
       2026 - 1964 - 1 ≤ a ≤ 2026 - 1964 ∧
       (a = 2026 - 1964 ↔ 9 < 11 ∨ (9 = 11 ∧ 2 ≤ 4)) ∧
       (date_le (Date 1964 9 2) (Date 2026 11 4) → 0 ≤ a).
Proof.
  apply (calc_age_of_dates strptime_demo (Date 2026 11 4) (Some "1964-09-02") None
           (Date 1964 9 2) (Date 2026 11 4)); reflexivity.
Defined.

(** X8. The age of a living person never decreases as the days pass, and
    the age of a person with a day of death does not depend on today. *)
Theorem calc_age_over_time strptime today1 today2 birthday deathday a1 a2 :
  calc_age strptime today1 birthday deathday = Parsed (Some a1) →
  calc_age strptime today2 birthday deathday = Parsed (Some a2) →
  (truthy deathday = true → a1 = a2) ∧
  (date_le today1 today2 → a1 ≤ a2).
Proof.
  unfold calc_age, age_end.
  destruct (truthy birthday); cbn [negb]; [|done].
  destruct (strptime (default "" birthday)) as [b|]; [|done].
  destruct (truthy deathday).
  - destruct (strptime (default "" deathday)) as [e|]; [|done].
    intros [= <-] [= <-]. split; [done | lia].
  - intros [= <-] [= <-]. split; [done|]. unfold date_le.
    pose proof (before_in_year_spec today1 b) as H1.
    pose proof (before_in_year_spec today2 b) as H2.
    destruct (before_in_year today1 b), (before_in_year today2 b); lia.
Qed.

Lemma calc_age_over_time_witness :
  (truthy None = true → 61 = 62) ∧
  (date_le (Date 2026 9 1) (Date 2026 9 2) → 61 ≤ 62).
Proof.
  apply (calc_age_over_time strptime_demo (Date 2026 9 1) (Date 2026 9 2)
           (Some "1964-09-02") None); reflexivity.
Defined.

(** ** Image addresses *)

Lemma append_inj_l (s t1 t2 : string) : s +:+ t1 = s +:+ t2 → t1 = t2.
Proof. induction s as [|c s IH]; [done|]. simpl. intros [= H]. by apply IH. Qed.

Lemma truthy_Some s : truthy s = true → ∃ p, s = Some p ∧ p ≠ "".
Proof.
  destruct s as [p|]; [|done]. simpl. intros H. exists p. split; [done|].
  intros ->. done.
Qed.

(** X9. [img_url] gives no address exactly for a missing or empty path,
    and two paths with the same address, for one size, are the same
    path. *)
Theorem img_url_injective path1 path2 size u :
  img_url path1 size = Some u → img_url path2 size = Some u →
  path1 = path2 ∧ truthy path1 = true ∧
  (∀ path, img_url path size = None ↔ truthy path = false).
Proof.
  unfold img_url. intros H1 H2. split_and!.
  - destruct (truthy path1) eqn:Ht1; [|done].
    destruct (truthy path2) eqn:Ht2; [|done].
    apply truthy_Some in Ht1 as (p1 & -> & _).
    apply truthy_Some in Ht2 as (p2 & -> & _).
    injection H1 as <-. injection H2 as H2. cbn [default] in H2.
    apply append_inj_l, append_inj_l in H2. by subst.
  - by destruct (truthy path1).
  - intros path. by destruct (truthy path).
Qed.

Lemma img_url_injective_witness :
  Some "/a.jpg" = Some "/a.jpg" ∧ truthy (Some "/a.jpg") = true ∧
  (∀ path, img_url path "w185" = None ↔ truthy path = false).
Proof.
  apply (img_url_injective (Some "/a.jpg") (Some "/a.jpg") "w185"
           "https://image.tmdb.org/t/p/w185/a.jpg"); reflexivity.
Defined.

(** ** Suggestions *)

Lemma py_take_length {A} limit (l : list A) :
  0 ≤ limit → (length (py_take limit l) ≤ Z.to_nat limit)%nat.
Proof.
  intros H. unfold py_take. rewrite decide_True by done. rewrite length_take. lia.
Qed.

Lemma py_take_prefix {A} limit (l : list A) : py_take limit l `prefix_of` l.
Proof. unfold py_take. case_decide; apply prefix_take. Qed.

Section SuggestionsSpec.

Variable strptime : string → option date.
Variable today : date.
Variable strip : string → string.
Variable search_person : string → exn + list hit.
Variable get_person_details : Z → exn + details.

Lemma suggest_id p r :
  suggest strptime today get_person_details p = inr r → s_id r = h_id p.
Proof.
  unfold suggest. destruct (get_person_details (h_id p)) as [e|d]; [done|].
  destruct (calc_age _ _ _ _) as [|age]; [done|]. by intros [= <-].
Qed.

Lemma suggest_all_inr hits acc rs :
  suggest_all strptime today get_person_details hits acc = inr rs →
  ∃ new, rs = acc ++ new ∧
    Forall2 (λ p r, suggest strptime today get_person_details p = inr r) hits new.
Proof.
  revert acc. induction hits as [|p hits IH]; intros acc; simpl.
  - intros [= <-]. exists []. by rewrite app_nil_r.
  - destruct (suggest _ _ _ p) as [f|r] eqn:Hp; [done|].
    intros (new & -> & Hall)%IH. exists (r :: new). split.
    + by rewrite <- app_assoc.
    + by constructor.
Qed.

Lemma suggest_all_inl hits acc f :
  suggest_all strptime today get_person_details hits acc = inl f →
  ∃ pre p post, hits = pre ++ p :: post ∧
    suggest strptime today get_person_details p = inl f ∧
    Forall (λ p', ∃ r, suggest strptime today get_person_details p' = inr r) pre.
Proof.
  revert acc. induction hits as [|p hits IH]; intros acc; simpl; [done|].
  destruct (suggest _ _ _ p) as [f'|r] eqn:Hp.
  - intros [= <-]. exists [], p, hits. by split_and!.
  - intros (pre & p' & post & -> & Hf & Hpre)%IH.
    exists (p :: pre), p', post. split_and!; [done..|]. constructor; eauto.
Qed.

End SuggestionsSpec.

(** X10. What [search_people] returns for a query that is not blank has
    one entry per hit of the provider, for the first [limit] hits and in
    their order, with the id of the hit; at most [limit] entries. For a
    blank query it is empty. *)
Theorem search_people_results strptime today strip search_person get_person_details
    query limit rs :
  search_people strptime today strip search_person get_person_details query limit
    = inr rs →
  (strip query = "" → rs = []) ∧
  (strip query ≠ "" →
   ∃ hits, search_person query = inr hits ∧
     Forall2 (λ p r, suggest strptime today get_person_details p = inr r)
       (py_take limit hits) rs ∧
     s_id <$> rs = h_id <$> py_take limit hits ∧
     py_take limit hits `prefix_of` hits ∧
     (0 ≤ limit → (length rs ≤ Z.to_nat limit)%nat)).
Proof.
  unfold search_people. destruct (String.eqb_spec (strip query) "") as [Hq|Hq].
  { intros [= <-]. by split. }
  intros Hrun. split; [done|]. intros _.
  destruct (search_person query) as [e|hits]; [done|].
  apply suggest_all_inr in Hrun as (new & -> & Hall). cbn [app].
  exists hits. split_and!; [done|done| |apply py_take_prefix|].
  - induction Hall as [|p r ps rs' Hp Hall IH]; [done|].
    rewrite !fmap_cons. f_equal; [by eapply suggest_id | done].
  - intros Hl. rewrite <- (Forall2_length _ _ _ Hall). by apply py_take_length.
Qed.

Lemma search_people_results_witness :
  ∃ hits, search_demo "keanu" = inr hits ∧
    Forall2 (λ p r, suggest strptime_demo (Date 2026 11 4) details_demo p = inr r)
      (py_take 1 hits)
      [Suggestion 6384 (Some "Keanu Reeves") (Some 62%Z) "The Matrix" None] ∧
    s_id <$> [Suggestion 6384 (Some "Keanu Reeves") (Some 62%Z) "The Matrix" None]
      = h_id <$> py_take 1 hits ∧
    py_take 1 hits `prefix_of` hits ∧
    (0 ≤ 1 →
     (length [Suggestion 6384 (Some "Keanu Reeves") (Some 62%Z) "The Matrix" None]
      ≤ Z.to_nat 1)%nat).
Proof.
  edestruct (search_people_results strptime_demo (Date 2026 11 4) id search_demo
               details_demo "keanu" 1) as [_ H]; [vm_compute; reflexivity|].
  apply H. done.
Defined.

(** X11. When [search_people] fails, the query is not blank and either
    the person search of the provider failed, with this failure, or the
    details of one of the first [limit] hits cannot be had or hold a date
    that does not parse: the failure is that of the first such hit, and no
    entry is returned for the hits before it. *)
Theorem search_people_fails strptime today strip search_person get_person_details
    query limit f :
  search_people strptime today strip search_person get_person_details query limit
    = inl f →
  strip query ≠ "" ∧
  ((∃ e, f = Provider e ∧ search_person query = inl e)
   ∨ ∃ hits pre p post,
       search_person query = inr hits ∧ py_take limit hits = pre ++ p :: post ∧
       suggest strptime today get_person_details p = inl f ∧
       Forall (λ p', ∃ r, suggest strptime today get_person_details p' = inr r) pre).
Proof.
  unfold search_people. destruct (String.eqb_spec (strip query) "") as [Hq|Hq]; [done|].
  intros Hrun. split; [done|].
  destruct (search_person query) as [e|hits].
  - left. injection Hrun as <-. by exists e.
  - right. apply suggest_all_inl in Hrun as (pre & p & post & Hh & Hf & Hpre).
    by exists hits, pre, p, post.
Qed.

Lemma search_people_fails_witness :
  search_people strptime_demo (Date 2026 11 4) id search_demo details_demo "keanu" 2
    = inl (Provider (HTTPError 404)) ∧ id "keanu" ≠ "".
Proof.
  assert (search_people strptime_demo (Date 2026 11 4) id search_demo details_demo
            "keanu" 2 = inl (Provider (HTTPError 404))) as H by (vm_compute; reflexivity).
  split; [exact H|].
  by destruct (search_people_fails _ _ _ _ _ _ _ _ H) as [Hq _].
Defined.

(** ** What [reconstruct] returns on any two maps *)

Lemma climb_follows fuel pa v l :
  climb fuel pa (Some v) = Some l → follows pa v l.
Proof.
  revert v l. induction fuel as [|fuel IH]; intros v l; [done|].
  simpl. destruct (mjoin (pa !! v)) as [p|] eqn:Hp.
  - destruct (climb fuel pa (Some p)) as [l'|] eqn:Hl; [|done].
    intros [= <-]. apply IH in Hl as Hf. split; [done|].
    destruct l' as [|y l']; [done|]. destruct Hf as [-> Hf]. by split.
  - rewrite climb_None. by intros [= <-].
Qed.

(** X12. Whatever the two parent maps are, a path that [reconstruct]
    returns is a list that follows the parents of [pa] from the meeting
    node to a node without parent, reversed, and then the list that
    follows the parents of [pb] from the meeting node on, without the
    meeting node itself. *)
Theorem reconstruct_follows fuel pa pb meet path :
  reconstruct fuel pa pb meet = Some path →
  ∃ left right,
    path = reverse left ++ right ∧
    follows pa meet left ∧ follows pb meet (meet :: right) ∧
    path !! (length left - 1)%nat = Some meet.
Proof.
  unfold reconstruct. destruct (climb fuel pa (Some meet)) as [left|] eqn:Hl; [|done].
  cbn. destruct (climb fuel pb (mjoin (pb !! meet))) as [right|] eqn:Hr; [|done].
  cbn. intros [= <-]. exists left, right.
  apply climb_follows in Hl as Hfl. split; [done|]. split; [done|]. split.
  - split; [done|]. destruct (mjoin (pb !! meet)) as [p|] eqn:Hp.
    + apply climb_follows in Hr. destruct right as [|y right]; [done|].
      destruct Hr as [-> Hr]. by split.
    + rewrite climb_None in Hr. by injection Hr as <-.
  - destruct left as [|x left]; [done|]. destruct Hfl as [-> _].
    rewrite reverse_cons, <- app_assoc. cbn [length].
    rewrite Nat.sub_succ, Nat.sub_0_r.
    rewrite lookup_app_r by (by rewrite length_reverse).
    by rewrite length_reverse, Nat.sub_diag.
Qed.

Lemma reconstruct_follows_witness :
  ∃ left right,
    [(movie, 20); (person, 3)] = reverse left ++ right ∧
    follows {[(person, 1) := None]} (movie, 20) left ∧
    follows (parents fork_side) (movie, 20) ((movie, 20) :: right) ∧
    [(movie, 20); (person, 3)] !! (length left - 1)%nat = Some (movie, 20).
Proof.
  apply (reconstruct_follows 3 {[(person, 1) := None]} (parents fork_side) (movie, 20)).
  vm_compute. reflexivity.
Defined.

(** ** The chain of cards *)

Lemma place_columns {A} (items : list A) n i :
  0 ≤ i → i + Z.of_nat (length items) = n →
  ∃ l, place items n (n * 2 - 1) i (2 * i) = Some l ∧
       l.*1 = seqZ (2 * i) (Z.of_nat (length l)) ∧
       (Z.of_nat (length l) = Z.max 0 (2 * Z.of_nat (length items) - 1)) ∧
       cards l = items ∧
       ∀ j c, (j, c) ∈ l → (Z.even j = true ↔ ∃ it, c = Card it).
Proof.
  revert i. induction items as [|it items IH]; intros i Hi Hn.
  - exists []. split_and!; try done. by intros j c ?%elem_of_nil.
  - cbn [length] in Hn. cbn [place].
    rewrite decide_True by lia.
    destruct (IH (i + 1)) as (l & Hl & Hfst & Hlen & Hcards & Hpar); [lia..|].
    replace (2 * (i + 1)) with (2 * i + 1 + 1) in Hl, Hfst by lia.
    destruct items as [|it' items].
    + rewrite decide_False by (cbn [length] in Hn; lia).
      cbn [place]. cbn [fmap option_fmap option_map].
      exists [(2 * i, Card it)]. split_and!; try done.
      intros j c [= -> ->]%list_elem_of_singleton.
      rewrite Z.even_mul. split; [eauto | done].
    + rewrite decide_True by (cbn [length] in Hn; lia).
      rewrite decide_True by (cbn [length] in Hn; lia).
      rewrite Hl. cbn [fmap option_fmap option_map].
      eexists. split; [done|]. split_and!.
      * assert (∀ a b a' b', a = a' → b = b' → seqZ a b = seqZ a' b') as Hseq
          by (by intros ???? -> ->).
        rewrite !fmap_cons, Hfst. cbn [fst length].
        rewrite (seqZ_cons (2 * i)) by lia. f_equal.
        rewrite (seqZ_cons (Z.succ (2 * i))) by lia.
        replace (Z.succ (2 * i)) with (2 * i + 1) by lia. f_equal.
        apply Hseq; lia.
      * cbn [length] in *. lia.
      * rewrite <- Hcards. reflexivity.
      * intros j c [[= -> ->]|[[= -> ->]|Hin]%elem_of_cons]%elem_of_cons.
        -- rewrite Z.even_mul. split; [eauto | done].
        -- rewrite Z.even_add, Z.even_mul. cbn. split; [done | by intros [? ?]].
        -- by apply Hpar.
Qed.

(** X13. The chain of a path that is not empty fills every one of its
    [2 * len(items) - 1] columns once, from left to right, without ever
    indexing past the last column: the cards of the nodes, in the order of
    the path, on the even columns and arrows on the odd ones. *)
Theorem chain_columns_alternate {A} (items : list A) :
  items ≠ [] →
  ∃ l, chain_columns items = Some l ∧
       l.*1 = seqZ 0 (2 * Z.of_nat (length items) - 1) ∧
       cards l = items ∧
       ∀ j c, (j, c) ∈ l → (Z.even j = true ↔ ∃ it, c = Card it).
Proof.
  intros Hne. unfold chain_columns.
  destruct (place_columns items (Z.of_nat (length items)) 0)
    as (l & Hl & Hfst & Hlen & Hcards & Hpar); [lia..|].
  exists l. split_and!; [done| |done|done].
  rewrite Hfst, Hlen. f_equal. destruct items; [done|]. cbn [length]. lia.
Qed.

Lemma chain_columns_alternate_witness :
  ∃ l, chain_columns [(person, 1); (movie, 10); (person, 2)] = Some l ∧
       l.*1 = seqZ 0 (2 * Z.of_nat (length [(person, 1); (movie, 10); (person, 2)]) - 1) ∧
       cards l = [(person, 1); (movie, 10); (person, 2)] ∧
       ∀ j c, (j, c) ∈ l → (Z.even j = true ↔ ∃ it, c = Card it).
Proof. apply (chain_columns_alternate [(person, 1); (movie, 10); (person, 2)]). done. Defined.
